(** * MUPOL-MPC: the oblivious dispatch algorithm

    A shallow embedding of [mupol/mpc/utils/mpyc_vector_functions.py],
    [mupol/mpc/input_uploader.py] and [mupol/mpc/solver.py].

    A secret-shared integer is represented by the integer it reveals to.
    The MPyC runtime is an external library; its operations are given their
    ideal functionality on revealed values, for values that fit the
    configured bit length of the secure integer type (no wrap-around in the
    underlying prime field). *)

From Stdlib Require Import ZArith Lia.
From stdpp Require Import base list numbers.

Local Open Scope Z_scope.

(** ** The MPyC runtime ([from mpyc.runtime import mpc]) *)

Module mpc.

(** [mpc.eq(a, b)]: the 0/1 outcome of the secure equality test. *)
Definition eq (a b : Z) : Z := if a =? b then 1 else 0.

(** [mpc.ge(a, b)]: the 0/1 outcome of the secure comparison [a >= b]. *)
Definition ge (a b : Z) : Z := if b <=? a then 1 else 0.

(** [mpc.if_else(c, x, y)] is computed by MPyC as [c * (x - y) + y]. *)
Definition if_else (c x y : Z) : Z := c * (x - y) + y.

(** [mpc.in_prod(x, y)]: the inner product of two vectors. *)
Definition in_prod (x y : list Z) : Z :=
  foldr Z.add 0 (zip_with Z.mul x y).

(** [mpc.matrix_prod(A, [v], tr=True)]: the product of [A] with the
    transpose of the one-row matrix [[v]], as the column of its entries. *)
Definition matrix_vector_prod (A : list (list Z)) (v : list Z) : list Z :=
  (fun row => in_prod row v) <$> A.

(** A left-to-right scan for the minimum: the running (index, minimum)
    pair, a later entry replacing it only when strictly smaller. *)
Fixpoint argmin_from (j : nat) (best : nat * Z) (x : list Z) : nat * Z :=
  match x with
  | [] => best
  | v :: rest =>
      argmin_from (S j) (if v <? best.2 then (j, v) else best) rest
  end.

(** [mpc.argmin(x)]: the (index, value) pair of a minimum of [x]; ties are
    given to the lowest index here, and the theorems below rely only on the
    index being a position of [x].  An empty sequence has no minimum and the
    call fails. *)
Definition argmin (x : list Z) : option (nat * Z) :=
  match x with
  | [] => None
  | v :: rest => Some (argmin_from 1 (0%nat, v) rest)
  end.

End mpc.

(** ** [mupol/mpc/utils/mpyc_vector_functions.py] *)

(** [real_or(a, b)]: [1 - ((1 - a) * (1 - b))]. *)
Definition real_or (a b : Z) : Z := 1 - ((1 - a) * (1 - b)).

(** [compute_indicator_vector(length, index)]: a vector of [length] zeros is
    allocated, then entry [j] is overwritten for [j] in [range(length)]. *)
Definition indicator_step (index valid : Z) (indicator_vector : list Z) (j : nat)
  : list Z :=
  <[j := mpc.if_else (mpc.eq (Z.of_nat j) index) valid (indicator_vector !!! j)]>
    indicator_vector.

Definition compute_indicator_vector (length : nat) (index : Z) : list Z :=
  let indicator_vector := replicate length 0 in
  let valid := 1 in
  foldl (indicator_step index valid) indicator_vector (seq 0 length).

(** [find_first_non_zero(secret_list)].  The loop state is the output vector
    together with [already_set].  [type(secret_list[0])] raises [IndexError]
    on an empty list. *)
Definition first_non_zero_step (secret_list : list Z)
    (state : list Z * Z) (j : nat) : list Z * Z :=
  let '(first_non_zero_list, already_set) := state in
  (<[j := (secret_list !!! j) * (1 - already_set)]> first_non_zero_list,
   real_or already_set (secret_list !!! j)).

Definition find_first_non_zero (secret_list : list Z) : option (list Z) :=
  match secret_list with
  | [] => None
  | _ =>
      let first_non_zero_list := replicate (length secret_list) 0 in
      let already_set := 0 in
      Some (foldl (first_non_zero_step secret_list)
              (first_non_zero_list, already_set)
              (seq 0 (length secret_list))).1
  end.

(** ** The data model

    The plaintext classes [Order], [Truck], [Map] and [Problem] belong to the
    package [mupol.plaintext]; the solver only reads and writes the
    attributes below. *)

Module Order.
Record t : Type := mk {
  origin : Z;
  destination : Z;
  volume : Z;
  processed : Z;
  process_this_round : Z;
  freighter_id : Z
}.
End Order.

Module Truck.
(** [dist_to_order] is a scratch attribute that does not exist until
    [_find_truck_dist_to_order] sets it. *)
Record t : Type := mk {
  capacity : Z;
  position : Z;
  destination : Z;
  freighter_id : Z;
  dist_to_order : option Z
}.
End Truck.

Module Map.
(** What the solver consumes of a [Map]: [len(map.positions)] and the
    matrix returned by [map.compute_route_matrix()], taken to be the square
    matrix of the costs between the positions of a map that is not empty. *)
Record t : Type := mk {
  num_positions : nat;
  route_matrix : list (list Z)
}.
End Map.

Module Problem.
Record t : Type := mk {
  trucks : list Truck.t;
  orders : list Order.t;
  map : Map.t
}.
End Problem.

(** [class EmptyDrive] of [solver.py]. *)
Module EmptyDrive.
Record t : Type := mk {
  freighter_id : Z;
  closest_position : Z;
  first_unprocessed_origin : Z
}.
End EmptyDrive.

(** ** [mupol/mpc/input_uploader.py] *)

(** [upload_order] secret-shares origin, destination and volume: the
    revealed values are unchanged. *)
Definition upload_order (order : Order.t) : Order.t := order.

Definition initialize_order (order : Order.t) (dummy_freighter_id : Z) : Order.t :=
  {| Order.origin := Order.origin order;
     Order.destination := Order.destination order;
     Order.volume := Order.volume order;
     Order.processed := 0;
     Order.process_this_round := 0;
     Order.freighter_id := dummy_freighter_id |}.

(** [upload_truck] secret-shares capacity, position and the id of the
    truck's freighter. *)
Definition upload_truck (truck : Truck.t) : Truck.t := truck.

Definition initialize_truck (truck : Truck.t) (dummy_node : Z) : Truck.t :=
  {| Truck.capacity := Truck.capacity truck;
     Truck.position := Truck.position truck;
     Truck.destination := dummy_node;
     Truck.freighter_id := Truck.freighter_id truck;
     Truck.dist_to_order := Truck.dist_to_order truck |}.

Definition prepare_mpc_data (problem : Problem.t)
    (dummy_freighter_id dummy_node : Z) : Problem.t :=
  {| Problem.trucks :=
       (fun truck => initialize_truck (upload_truck truck) dummy_node)
         <$> Problem.trucks problem;
     Problem.orders :=
       (fun order => initialize_order (upload_order order) dummy_freighter_id)
         <$> Problem.orders problem;
     Problem.map := Problem.map problem |}.

(** ** The reveals of [mpc.output] *)

(** [receivers=None] sends the value to every party, [receivers=i] to party
    [i] alone. *)
Inductive Receivers : Type :=
| AllParties
| Party (i : nat).

(** What a revealed value is: the per-round count, or a field of the order
    or of the empty drive at a given index. *)
Inductive Revealed : Type :=
| NumAddedOrders
| OrderFreighterId (i : nat)
| OrderOrigin (i : nat)
| OrderDestination (i : nat)
| OrderVolume (i : nat)
| DriveFreighterId (i : nat)
| DriveClosestPosition (i : nat)
| DriveFirstUnprocessedOrigin (i : nat).

Record Output : Type := mkOutput {
  what : Revealed;
  value : Z;
  receivers : Receivers
}.

(** Outcome of a run of the round loop: it returns, it raises, or it is
    still looping when the fuel is spent. *)
Inductive Run (A : Type) : Type :=
| Returned (a : A)
| Raised
| OutOfFuel.
Arguments Returned {A} a.
Arguments Raised {A}.
Arguments OutOfFuel {A}.

(** ** [mupol/mpc/solver.py] *)

Module MPCSolver.

(** The attributes of [class MPCSolver].  [map] stands for [self.map];
    [self.freighters] and [self.logger] take no part in the computation. *)
Record t : Type := mk {
  trucks : list Truck.t;
  orders : list Order.t;
  map : Map.t;
  empty_drives : list EmptyDrive.t;
  dummy_freighter_id : Z;
  dummy_node : Z;
  truck_capacity : Z;
  num_processed_orders : Z
}.

(** The constructor.  [type(self.orders[0].origin)] raises [IndexError]
    when the problem has no orders. *)
Definition __init__ (problem : Problem.t)
    (dummy_freighter_id dummy_node truck_capacity : Z) : option t :=
  match Problem.orders problem with
  | [] => None
  | _ =>
      Some {| trucks := Problem.trucks problem;
              orders := Problem.orders problem;
              map := Problem.map problem;
              empty_drives := [];
              dummy_freighter_id := dummy_freighter_id;
              dummy_node := dummy_node;
              truck_capacity := truck_capacity;
              num_processed_orders := 0 |}
  end.

Definition set_trucks (self : t) (trucks : list Truck.t) : t :=
  {| trucks := trucks;
     orders := orders self;
     map := map self;
     empty_drives := empty_drives self;
     dummy_freighter_id := dummy_freighter_id self;
     dummy_node := dummy_node self;
     truck_capacity := truck_capacity self;
     num_processed_orders := num_processed_orders self |}.

Definition set_orders (self : t) (orders : list Order.t) : t :=
  {| trucks := trucks self;
     orders := orders;
     map := map self;
     empty_drives := empty_drives self;
     dummy_freighter_id := dummy_freighter_id self;
     dummy_node := dummy_node self;
     truck_capacity := truck_capacity self;
     num_processed_orders := num_processed_orders self |}.

Definition set_empty_drives (self : t) (empty_drives : list EmptyDrive.t) : t :=
  {| trucks := trucks self;
     orders := orders self;
     map := map self;
     empty_drives := empty_drives;
     dummy_freighter_id := dummy_freighter_id self;
     dummy_node := dummy_node self;
     truck_capacity := truck_capacity self;
     num_processed_orders := num_processed_orders self |}.

Definition set_num_processed_orders (self : t) (n : Z) : t :=
  {| trucks := trucks self;
     orders := orders self;
     map := map self;
     empty_drives := empty_drives self;
     dummy_freighter_id := dummy_freighter_id self;
     dummy_node := dummy_node self;
     truck_capacity := truck_capacity self;
     num_processed_orders := n |}.

(** The secret flag [compatible] of [_fill_truck_with_order]. *)
Definition compatible (self : t) (truck : Truck.t) (order : Order.t) : Z :=
  let equal_positions := mpc.eq (Truck.position truck) (Order.origin order) in
  let destinations_compatible :=
    real_or (mpc.eq (Truck.destination truck) (dummy_node self))
            (mpc.eq (Truck.destination truck) (Order.destination order)) in
  let positive_capacity :=
    mpc.ge (Truck.capacity truck - Order.volume order) 0 in
  let order_is_open := 1 - Order.processed order in
  equal_positions * destinations_compatible * positive_capacity * order_is_open.

(** [_fill_truck_with_order(truck, order)]: both objects are updated in
    place; the pair of their new contents is returned. *)
Definition _fill_truck_with_order (self : t) (truck : Truck.t) (order : Order.t)
  : Truck.t * Order.t :=
  let compatible := compatible self truck order in
  let truck_destination :=
    mpc.if_else compatible (Order.destination order) (Truck.destination truck) in
  let order_processed := real_or compatible (Order.processed order) in
  let order_process_this_round :=
    real_or compatible (Order.process_this_round order) in
  let order_freighter_id :=
    mpc.if_else compatible (Truck.freighter_id truck) (Order.freighter_id order) in
  let truck_capacity := Truck.capacity truck - Order.volume order * compatible in
  ({| Truck.capacity := truck_capacity;
      Truck.position := Truck.position truck;
      Truck.destination := truck_destination;
      Truck.freighter_id := Truck.freighter_id truck;
      Truck.dist_to_order := Truck.dist_to_order truck |},
   {| Order.origin := Order.origin order;
      Order.destination := Order.destination order;
      Order.volume := Order.volume order;
      Order.processed := order_processed;
      Order.process_this_round := order_process_this_round;
      Order.freighter_id := order_freighter_id |}).

(** The inner loop of [_fill_trucks]: [for order in self.orders]. *)
Fixpoint fill_truck_with_orders (self : t) (truck : Truck.t)
    (orders : list Order.t) : Truck.t * list Order.t :=
  match orders with
  | [] => (truck, [])
  | order :: rest =>
      let '(truck, order) := _fill_truck_with_order self truck order in
      let '(truck, rest) := fill_truck_with_orders self truck rest in
      (truck, order :: rest)
  end.

(** The three assignments that close the body of the outer loop. *)
Definition finish_truck (self : t) (truck : Truck.t) : Truck.t :=
  {| Truck.capacity := truck_capacity self;
     Truck.position :=
       mpc.if_else (1 - mpc.eq (Truck.destination truck) (dummy_node self))
         (Truck.destination truck) (Truck.position truck);
     Truck.destination := dummy_node self;
     Truck.freighter_id := Truck.freighter_id truck;
     Truck.dist_to_order := Truck.dist_to_order truck |}.

(** The outer loop of [_fill_trucks]: [for truck in self.trucks]. *)
Fixpoint fill_each_truck (self : t) (trucks : list Truck.t)
    (orders : list Order.t) : list Truck.t * list Order.t :=
  match trucks with
  | [] => ([], orders)
  | truck :: rest =>
      let '(truck, orders) := fill_truck_with_orders self truck orders in
      let truck := finish_truck self truck in
      let '(rest, orders) := fill_each_truck self rest orders in
      (truck :: rest, orders)
  end.

Definition _fill_trucks (self : t) : t :=
  let '(trucks, orders) := fill_each_truck self (trucks self) (orders self) in
  set_orders (set_trucks self trucks) orders.

Definition _locate_first_unprocessed_origin (self : t) : option (Z * list Z) :=
  let unprocessed_indexes :=
    (fun order => 1 - Order.processed order) <$> orders self in
  first_unprocessed_index ← find_first_non_zero unprocessed_indexes;
  let first_unprocessed_origin :=
    mpc.in_prod (Order.origin <$> orders self) first_unprocessed_index in
  let first_unprocessed_origin_vec :=
    compute_indicator_vector (Map.num_positions (map self))
      first_unprocessed_origin in
  Some (first_unprocessed_origin, first_unprocessed_origin_vec).

Definition _find_truck_dist_to_order (self : t) (truck : Truck.t)
    (node_indicator_vector : list Z) (route_matrix : list (list Z)) : Truck.t :=
  let truck_position_vec :=
    compute_indicator_vector (Map.num_positions (map self))
      (Truck.position truck) in
  {| Truck.capacity := Truck.capacity truck;
     Truck.position := Truck.position truck;
     Truck.destination := Truck.destination truck;
     Truck.freighter_id := Truck.freighter_id truck;
     Truck.dist_to_order :=
       Some (mpc.in_prod truck_position_vec
               (mpc.matrix_vector_prod route_matrix node_indicator_vector)) |}.

Definition _find_distances_to_order (self : t)
    (node_indicator_vector : list Z) : t :=
  let route_matrix := Map.route_matrix (map self) in
  set_trucks self
    ((fun truck =>
        _find_truck_dist_to_order self truck node_indicator_vector route_matrix)
       <$> trucks self).

(** The select chain shared by [_find_truck_position] and
    [_find_freighter_id]: [for other_truck_index in range(len(self.trucks))],
    entered at [other_truck_index] with the trucks still to visit. *)
Fixpoint select_truck_field (field : Truck.t -> Z) (truck_index : Z)
    (other_truck_index : nat) (trucks : list Truck.t) (acc : Z) : Z :=
  match trucks with
  | [] => acc
  | truck :: rest =>
      select_truck_field field truck_index (S other_truck_index) rest
        (mpc.if_else (mpc.eq (Z.of_nat other_truck_index) truck_index)
           (field truck) acc)
  end.

Definition _find_truck_position (self : t) (truck_index : Z) : Z :=
  select_truck_field Truck.position truck_index 0 (trucks self) (dummy_node self).

Definition _find_freighter_id (self : t) (truck_index : Z) : Z :=
  select_truck_field Truck.freighter_id truck_index 0 (trucks self)
    (dummy_freighter_id self).

Definition _move_truck (self : t) (truck_index destination : Z) : t :=
  set_trucks self
    (imap
       (fun other_truck_index truck =>
          {| Truck.capacity := Truck.capacity truck;
             Truck.position :=
               mpc.if_else (mpc.eq (Z.of_nat other_truck_index) truck_index)
                 destination (Truck.position truck);
             Truck.destination := Truck.destination truck;
             Truck.freighter_id := Truck.freighter_id truck;
             Truck.dist_to_order := Truck.dist_to_order truck |})
       (trucks self)).

Definition _create_empty_truck_drive (self : t) : option t :=
  '(first_unprocessed_origin, first_unprocessed_origin_vec) ←
    _locate_first_unprocessed_origin self;
  let self := _find_distances_to_order self first_unprocessed_origin_vec in
  dists ← mapM Truck.dist_to_order (trucks self);
  closest ← mpc.argmin dists;
  let closest_truck_index := Z.of_nat closest.1 in
  let closest_position := _find_truck_position self closest_truck_index in
  let freighter_id := _find_freighter_id self closest_truck_index in
  let empty_drive :=
    EmptyDrive.mk freighter_id closest_position first_unprocessed_origin in
  let self := set_empty_drives self (empty_drives self ++ [empty_drive]) in
  Some (_move_truck self closest_truck_index first_unprocessed_origin).

(** [sum(order.process_this_round for order in self.orders)], the value
    that is revealed in every round. *)
Definition num_added_orders (self : t) : Z :=
  foldr Z.add 0 (Order.process_this_round <$> orders self).

Definition reset_order (order : Order.t) : Order.t :=
  {| Order.origin := Order.origin order;
     Order.destination := Order.destination order;
     Order.volume := Order.volume order;
     Order.processed := Order.processed order;
     Order.process_this_round := 0;
     Order.freighter_id := Order.freighter_id order |}.

(** The body of the [while] loop of [solve_problem], with the value it
    reveals. *)
Definition round (self : t) : option (t * Output) :=
  let self := _fill_trucks self in
  let num_added_orders := num_added_orders self in
  self ← (if num_added_orders =? 0 then _create_empty_truck_drive self
          else Some self);
  let self := set_orders self (reset_order <$> orders self) in
  Some (set_num_processed_orders self
          (num_processed_orders self + num_added_orders),
        mkOutput NumAddedOrders num_added_orders AllParties).

(** The [while] loop, run for at most [fuel] rounds. *)
Fixpoint rounds (fuel : nat) (self : t) : Run (t * list Output) :=
  if num_processed_orders self <? Z.of_nat (length (orders self)) then
    match fuel with
    | O => OutOfFuel
    | S fuel =>
        match round self with
        | None => Raised
        | Some (self, out) =>
            match rounds fuel self with
            | Returned (self, outs) => Returned (self, out :: outs)
            | Raised => Raised
            | OutOfFuel => OutOfFuel
            end
        end
    end
  else Returned (self, []).

(** The calls to [mpc.output] in the body of [for order in self.orders],
    in program order; the last three are the arguments of [logger.debug]. *)
Definition reveal_order (i : nat) (order : Order.t) : list Output :=
  [ mkOutput (OrderFreighterId i) (Order.freighter_id order) AllParties;
    mkOutput (OrderOrigin i) (Order.origin order) (Party 0);
    mkOutput (OrderDestination i) (Order.destination order) (Party 0);
    mkOutput (OrderVolume i) (Order.volume order) (Party 0);
    mkOutput (OrderOrigin i) (Order.origin order) AllParties;
    mkOutput (OrderDestination i) (Order.destination order) AllParties;
    mkOutput (OrderVolume i) (Order.volume order) AllParties ].

(** The calls to [mpc.output] in the body of
    [for empty_drive in self.empty_drives]. *)
Definition reveal_empty_drive (i : nat) (empty_drive : EmptyDrive.t)
  : list Output :=
  [ mkOutput (DriveFreighterId i) (EmptyDrive.freighter_id empty_drive)
      AllParties;
    mkOutput (DriveClosestPosition i)
      (EmptyDrive.closest_position empty_drive) (Party 0);
    mkOutput (DriveFirstUnprocessedOrigin i)
      (EmptyDrive.first_unprocessed_origin empty_drive) (Party 0);
    mkOutput (DriveClosestPosition i)
      (EmptyDrive.closest_position empty_drive) AllParties;
    mkOutput (DriveFirstUnprocessedOrigin i)
      (EmptyDrive.first_unprocessed_origin empty_drive) AllParties ].

(** [solve_problem]: the final state and every value revealed on the way. *)
Definition solve_problem (fuel : nat) (self : t) : Run (t * list Output) :=
  match rounds fuel self with
  | Returned (self, outs) =>
      Returned (self,
                outs
                ++ concat (imap reveal_order (orders self))
                ++ concat (imap reveal_empty_drive (empty_drives self)))
  | Raised => Raised
  | OutOfFuel => OutOfFuel
  end.

End MPCSolver.

(** ** Reference functions for the statements *)

(** What the scan of [find_first_non_zero] writes for the entries of a
    list, entered with a given value of [already_set]. *)
Fixpoint first_non_zero_from (already_set : Z) (secret_list : list Z) : list Z :=
  match secret_list with
  | [] => []
  | x :: rest =>
      x * (1 - already_set) :: first_non_zero_from (real_or already_set x) rest
  end.

(** The first order of a list whose [processed] flag reveals to 0. *)
Definition first_unprocessed (orders : list Order.t) : option Order.t :=
  List.find (fun order => Order.processed order =? 0) orders.

(** The state of one order after a sequence of calls of
    [_fill_truck_with_order], one for each truck of a list. *)
Definition fill_order_with_trucks (self : MPCSolver.t) (order : Order.t)
    (trucks : list Truck.t) : Order.t :=
  foldl (fun order truck => (MPCSolver._fill_truck_with_order self truck order).2)
    order trucks.

(** The reading of "to the owning party only": an output of an order's
    origin, destination or volume, or of an empty drive's positions, goes to
    the party that owns the order or the drive, and to nobody else. *)
Definition private_to_owner (order_owner drive_owner : nat -> nat)
    (out : Output) : Prop :=
  match what out with
  | OrderOrigin i | OrderDestination i | OrderVolume i =>
      receivers out = Party (order_owner i)
  | DriveClosestPosition i | DriveFirstUnprocessedOrigin i =>
      receivers out = Party (drive_owner i)
  | NumAddedOrders | OrderFreighterId _ | DriveFreighterId _ => True
  end.

(** The scenario of one truck and one order, as a plaintext problem: the
    truck has capacity 10 and stands at [A]; the order goes from [A] to [B]
    with volume 4. *)
Definition one_truck_one_order (A B freighter : Z) (map : Map.t) : Problem.t :=
  {| Problem.trucks := [Truck.mk 10 A 0 freighter None];
     Problem.orders := [Order.mk A B 4 0 0 0];
     Problem.map := map |}.

(** The solver built on that scenario by [prepare_mpc_data] and the
    constructor, as [example.py] does. *)
Definition one_truck_one_order_solver (A B freighter : Z) (map : Map.t)
    (dummy_freighter_id dummy_node truck_capacity : Z) : option MPCSolver.t :=
  MPCSolver.__init__
    (prepare_mpc_data (one_truck_one_order A B freighter map)
       dummy_freighter_id dummy_node)
    dummy_freighter_id dummy_node truck_capacity.

(** A map of two nodes, three apart. *)
Definition two_nodes : Map.t := Map.mk 2 [[0; 3]; [3; 0]].

(** A secret value is a bit when it reveals to 0 or to 1. *)
Definition is_bit (a : Z) : Prop := a = 0 \/ a = 1.

(** The flags of an order are well formed: both are bits, and an order
    marked for this round is marked as processed. *)
Definition order_ok (order : Order.t) : Prop :=
  is_bit (Order.processed order)
  /\ is_bit (Order.process_this_round order)
  /\ Order.process_this_round order <= Order.processed order.

(** [order'] is a later state of [order]: same content, and [processed] has
    grown by as much as [process_this_round]. *)
Definition evolves (order order' : Order.t) : Prop :=
  Order.origin order' = Order.origin order
  /\ Order.destination order' = Order.destination order
  /\ Order.volume order' = Order.volume order
  /\ Order.processed order' - Order.process_this_round order'
     = Order.processed order - Order.process_this_round order.

(** That solver for [A = 0], [B = 1], freighter 7, dummy freighter id 200,
    dummy node 100 and a configured capacity of 10. *)
Definition scenario_solver : MPCSolver.t :=
  MPCSolver.mk [Truck.mk 10 0 100 7 None] [Order.mk 0 1 4 0 0 200]
    two_nodes [] 200 100 10 0.

(** A problem whose first round stalls: the only truck stands at node 1 and
    the only order starts at node 0. *)
Definition stalled_problem : Problem.t :=
  {| Problem.trucks := [Truck.mk 10 1 0 7 None];
     Problem.orders := [Order.mk 0 1 4 0 0 0];
     Problem.map := two_nodes |}.

Definition stalled_solver : MPCSolver.t :=
  MPCSolver.mk [Truck.mk 10 1 100 7 None] [Order.mk 0 1 4 0 0 200]
    two_nodes [] 200 100 10 0.

(** The states in which [solve_problem] enters or leaves a round. *)
Inductive reachable (start : MPCSolver.t) : MPCSolver.t -> Prop :=
| reachable_start : reachable start start
| reachable_round self self' out :
    reachable start self ->
    MPCSolver.num_processed_orders self
      < Z.of_nat (length (MPCSolver.orders self)) ->
    MPCSolver.round self = Some (self', out) ->
    reachable start self'.

(** What holds between two rounds: the flags are well formed, no order is
    marked for the round, and the counter is the number of processed
    orders. *)
Definition between_rounds (self : MPCSolver.t) : Prop :=
  Forall order_ok (MPCSolver.orders self)
  /\ Forall (fun order => Order.process_this_round order = 0)
       (MPCSolver.orders self)
  /\ MPCSolver.num_processed_orders self
     = foldr Z.add 0 (Order.processed <$> MPCSolver.orders self).

(** The entry of a list at an integer index, when the index is one of its
    positions. *)
Definition lookup_index {A : Type} (l : list A) (index : Z) : option A :=
  if 0 <=? index then l !! Z.to_nat index else None.

(** A map is well formed when its route matrix is square, with one row and
    one column for each position. *)
Definition well_formed_map (m : Map.t) : Prop :=
  length (Map.route_matrix m) = Map.num_positions m
  /\ Forall (fun row => length row = Map.num_positions m) (Map.route_matrix m).

(** The cost of the route between two nodes, read in the matrix; 0 when a
    node is not a position of the map. *)
Definition route_cost (m : Map.t) (source target : Z) : Z :=
  default 0 (row ← lookup_index (Map.route_matrix m) source;
             lookup_index row target).

(** The counts revealed round after round, in a list of outputs. *)
Definition revealed_counts (outs : list Output) : list Z :=
  omap (fun out =>
          match what out with
          | NumAddedOrders => Some (value out)
          | _ => None
          end) outs.

(** The freighter ids of a fleet. *)
Definition fleet_freighters (trucks : list Truck.t) : list Z :=
  Truck.freighter_id <$> trucks.

(** How a round of filling may change an order: not at all, or the order
    was unprocessed and a truck of the fleet standing at its origin has
    packed it. *)
Definition kept_or_packed (trucks : list Truck.t) (order order' : Order.t)
  : Prop :=
  order' = order
  \/ (Order.processed order = 0
      /\ exists truck,
           truck ∈ trucks
           /\ Truck.position truck = Order.origin order
           /\ order' = Order.mk (Order.origin order) (Order.destination order)
                         (Order.volume order) 1 1 (Truck.freighter_id truck)).

(** An order is unassigned, with the dummy freighter id, or processed by a
    freighter of the fleet. *)
Definition assignment_ok (freighters : list Z) (dummy_freighter_id : Z)
    (order : Order.t) : Prop :=
  (Order.processed order = 0 /\ Order.freighter_id order = dummy_freighter_id)
  \/ (Order.processed order = 1 /\ Order.freighter_id order ∈ freighters).

(** What every state of the round loop keeps of the uploaded problem and of
    the parameters of the solver: the state lies between two rounds, the
    parameters and the map are those given, the fleet has the freighters of
    the problem, and the orders are those of the problem, each one
    unassigned or assigned to a freighter of the fleet. *)
Definition solver_ok (problem : Problem.t) (dfi dn tc : Z) (self : MPCSolver.t)
  : Prop :=
  between_rounds self
  /\ MPCSolver.truck_capacity self = tc
  /\ MPCSolver.dummy_node self = dn
  /\ MPCSolver.dummy_freighter_id self = dfi
  /\ MPCSolver.map self = Problem.map problem
  /\ fleet_freighters (MPCSolver.trucks self)
     = fleet_freighters (Problem.trucks problem)
  /\ Forall2 (fun order order' =>
                Order.origin order' = Order.origin order
                /\ Order.destination order' = Order.destination order
                /\ Order.volume order' = Order.volume order
                /\ assignment_ok (fleet_freighters (Problem.trucks problem))
                     dfi order')
       (Problem.orders problem) (MPCSolver.orders self).

(** The trucks as a round leaves them: the configured capacity and no
    commitment. *)
Definition trucks_ready (self : MPCSolver.t) : Prop :=
  Forall (fun truck =>
            Truck.capacity truck = MPCSolver.truck_capacity self
            /\ Truck.destination truck = MPCSolver.dummy_node self)
    (MPCSolver.trucks self).

(** The state of [stalled_solver] after its first round: the truck has been
    moved to node 0, the origin of the order. *)
Definition moved_solver : MPCSolver.t :=
  MPCSolver.mk [Truck.mk 10 0 100 7 (Some 3)] [Order.mk 0 1 4 0 0 200]
    two_nodes [EmptyDrive.mk 7 1 0] 200 100 10 0.

(** An order with a bit for [processed] and a volume that is not negative. *)
Definition sound_order (order : Order.t) : Prop :=
  is_bit (Order.processed order) /\ 0 <= Order.volume order.

(** [order'] is a later state of [order] in which an order of volume [v] or
    more has not been touched. *)
Definition kept_if_large (v : Z) (order order' : Order.t) : Prop :=
  Order.volume order' = Order.volume order
  /\ is_bit (Order.processed order')
  /\ (v <= Order.volume order -> order' = order).

(** A problem without any truck: one order on the map of two nodes; and the
    solver built on it with dummy freighter id 200, dummy node 100 and a
    configured capacity of 10. *)
Definition no_truck_problem : Problem.t :=
  {| Problem.trucks := [];
     Problem.orders := [Order.mk 0 1 4 0 0 0];
     Problem.map := two_nodes |}.

Definition no_truck_solver : MPCSolver.t :=
  MPCSolver.mk [] [Order.mk 0 1 4 0 0 200] two_nodes [] 200 100 10 0.

(** The solver of the scenario of one truck and one order, configured with
    the capacity -5 while the truck is uploaded with capacity 10. *)
Definition negative_capacity_solver : MPCSolver.t :=
  MPCSolver.mk [Truck.mk 10 0 100 7 None] [Order.mk 0 1 4 0 0 200]
    two_nodes [] 200 100 (-5) 0.

(** The unit tests of [tests/test_mpyc_functions.py]. *)
Example test_real_or :
  real_or 0 0 = 0 /\ real_or 0 1 = 1 /\ real_or 1 0 = 1 /\ real_or 1 1 = 1.
Proof. repeat split; reflexivity. Qed.

Example test_compute_indicator_vector :
  compute_indicator_vector 5 2 = [0; 0; 1; 0; 0].
Proof. reflexivity. Qed.

Example test_find_first_non_zero :
  find_first_non_zero [1; 0; 1] = Some [1; 0; 0].
Proof. reflexivity. Qed.

(** ** The oblivious primitives *)

Lemma is_bit_real_or a b : is_bit a -> is_bit b -> is_bit (real_or a b).
Proof. unfold is_bit, real_or. intros [-> | ->] [-> | ->]; lia. Qed.

Lemma is_bit_eq a b : is_bit (mpc.eq a b).
Proof. unfold is_bit, mpc.eq. destruct (a =? b); auto. Qed.

Lemma is_bit_ge a b : is_bit (mpc.ge a b).
Proof. unfold is_bit, mpc.ge. destruct (b <=? a); auto. Qed.

Lemma if_else_0 x y : mpc.if_else 0 x y = y.
Proof. unfold mpc.if_else. lia. Qed.

Lemma if_else_1 x y : mpc.if_else 1 x y = x.
Proof. unfold mpc.if_else. lia. Qed.

Lemma eq_true a b : a = b -> mpc.eq a b = 1.
Proof. intros ->. unfold mpc.eq. now rewrite Z.eqb_refl. Qed.

Lemma eq_false a b : a <> b -> mpc.eq a b = 0.
Proof. intros H. unfold mpc.eq. now destruct (Z.eqb_spec a b). Qed.

(** C4. On secret bits [real_or] is the disjunction: the result is a bit, it
    reveals to 1 exactly when one of the inputs reveals to 1, and to 0
    exactly when both reveal to 0. *)
Theorem real_or_spec (a b : Z) :
  is_bit a -> is_bit b ->
  is_bit (real_or a b)
  /\ (real_or a b = 1 <-> a = 1 \/ b = 1)
  /\ (real_or a b = 0 <-> a = 0 /\ b = 0).
Proof.
  intros Ha Hb. split; [by apply is_bit_real_or|].
  unfold is_bit, real_or in *.
  destruct Ha as [-> | ->], Hb as [-> | ->]; lia.
Qed.

Lemma real_or_spec_witness :
  is_bit 1 /\ is_bit 0
  /\ is_bit (real_or 1 0)
  /\ (real_or 1 0 = 1 <-> 1 = 1 \/ 0 = 1)
  /\ (real_or 1 0 = 0 <-> 1 = 0 /\ 0 = 0).
Proof.
  assert (H1 : is_bit 1) by (right; reflexivity).
  assert (H0 : is_bit 0) by (left; reflexivity).
  split; [exact H1|]. split; [exact H0|].
  exact (real_or_spec 1 0 H1 H0).
Defined.

(** The state of the loop of [compute_indicator_vector] after [k] of its
    [n] iterations: the first [k] entries hold the comparisons, the others
    are still zero. *)
Lemma indicator_loop (n k : nat) (index : Z) :
  (k <= n)%nat ->
  foldl (indicator_step index 1) (replicate n 0) (seq 0 k)
  = ((fun j => mpc.eq (Z.of_nat j) index) <$> seq 0 k) ++ replicate (n - k) 0.
Proof.
  induction k as [|k IH]; intros Hk.
  - simpl. by rewrite Nat.sub_0_r.
  - rewrite seq_S, foldl_snoc, fmap_app, IH by lia. simpl.
    set (done := (fun j => mpc.eq (Z.of_nat j) index) <$> seq 0 k).
    assert (Hlen : length done = k)
      by (subst done; by rewrite length_fmap, length_seq).
    unfold indicator_step.
    replace (n - k)%nat with (S (n - S k)) by lia. simpl.
    rewrite list_lookup_total_middle by done.
    rewrite insert_app_r_alt by lia.
    rewrite Hlen, Nat.sub_diag. simpl.
    rewrite <- app_assoc. simpl.
    unfold mpc.if_else. do 3 f_equal. lia.
Qed.

Lemma compute_indicator_vector_eq (n : nat) (index : Z) :
  compute_indicator_vector n index
  = (fun j => mpc.eq (Z.of_nat j) index) <$> seq 0 n.
Proof.
  unfold compute_indicator_vector.
  rewrite indicator_loop, Nat.sub_diag by done. simpl. by rewrite app_nil_r.
Qed.

Lemma compute_indicator_vector_length (n : nat) (index : Z) :
  length (compute_indicator_vector n index) = n.
Proof. by rewrite compute_indicator_vector_eq, length_fmap, length_seq. Qed.

Lemma compute_indicator_vector_lookup (n : nat) (index : Z) (j : nat) :
  (j < n)%nat ->
  compute_indicator_vector n index !! j = Some (mpc.eq (Z.of_nat j) index).
Proof.
  intros Hj. rewrite compute_indicator_vector_eq, list_lookup_fmap.
  by rewrite lookup_seq_lt.
Qed.

(** C6. For a length of at least 1 and an index that reveals to a position
    of the vector, [compute_indicator_vector] returns [length] entries: a 1
    at position [index] and a 0 at every other position. *)
Theorem compute_indicator_vector_in_range (length : nat) (index : Z) :
  (1 <= length)%nat ->
  0 <= index < Z.of_nat length ->
  base.length (compute_indicator_vector length index) = length
  /\ compute_indicator_vector length index !! Z.to_nat index = Some 1
  /\ (forall j : nat,
        (j < length)%nat -> j <> Z.to_nat index ->
        compute_indicator_vector length index !! j = Some 0).
Proof.
  intros _ Hi. split; [apply compute_indicator_vector_length|]. split.
  - rewrite compute_indicator_vector_lookup by lia. f_equal. apply eq_true. lia.
  - intros j Hj Hne. rewrite compute_indicator_vector_lookup by done.
    f_equal. apply eq_false. lia.
Qed.

Lemma compute_indicator_vector_in_range_witness :
  (1 <= 5)%nat /\ 0 <= 2 < Z.of_nat 5
  /\ length (compute_indicator_vector 5 2) = 5%nat
  /\ compute_indicator_vector 5 2 !! Z.to_nat 2 = Some 1
  /\ (forall j : nat,
        (j < 5)%nat -> j <> Z.to_nat 2 ->
        compute_indicator_vector 5 2 !! j = Some 0).
Proof.
  assert (H1 : (1 <= 5)%nat) by lia.
  assert (H2 : 0 <= 2 < Z.of_nat 5) by lia.
  split; [exact H1|]. split; [exact H2|].
  exact (compute_indicator_vector_in_range 5 2 H1 H2).
Defined.

(** C10. When the index reveals to a value outside [0, length - 1], no
    position compares equal to it and [compute_indicator_vector] returns
    [length] zeros. *)
Theorem compute_indicator_vector_out_of_range (length : nat) (index : Z) :
  ~ (0 <= index < Z.of_nat length) ->
  compute_indicator_vector length index = replicate length 0.
Proof.
  intros Hout. rewrite compute_indicator_vector_eq.
  erewrite const_fmap; [by rewrite length_seq|].
  intros i j Hj. apply lookup_seq in Hj as [-> Hi].
  apply eq_false. lia.
Qed.

Lemma compute_indicator_vector_out_of_range_witness :
  ~ (0 <= 7 < Z.of_nat 3)
  /\ compute_indicator_vector 3 7 = replicate 3 0.
Proof.
  assert (H : ~ (0 <= 7 < Z.of_nat 3)) by lia.
  split; [exact H|].
  exact (compute_indicator_vector_out_of_range 3 7 H).
Defined.

(** *** The scan of [find_first_non_zero] *)

Lemma first_non_zero_from_snoc (a x : Z) (l : list Z) :
  first_non_zero_from a (l ++ [x])
  = first_non_zero_from a l ++ [x * (1 - foldl real_or a l)].
Proof.
  revert a. induction l as [|y l IH]; intros a; simpl; [done|].
  by rewrite IH.
Qed.

Lemma first_non_zero_from_length (a : Z) (l : list Z) :
  length (first_non_zero_from a l) = length l.
Proof. revert a. induction l as [|y l IH]; intros a; simpl; [done|]. by rewrite IH. Qed.

(** The state of the loop of [find_first_non_zero] after [k] iterations. *)
Lemma first_non_zero_loop (secret_list : list Z) (k : nat) :
  (k <= length secret_list)%nat ->
  foldl (first_non_zero_step secret_list)
    (replicate (length secret_list) 0, 0) (seq 0 k)
  = (first_non_zero_from 0 (take k secret_list)
       ++ replicate (length secret_list - k) 0,
     foldl real_or 0 (take k secret_list)).
Proof.
  induction k as [|k IH]; intros Hk.
  - simpl. by rewrite Nat.sub_0_r.
  - rewrite seq_S, foldl_snoc, IH by lia. simpl.
    destruct (lookup_lt_is_Some_2 secret_list k) as [x Hx]; [lia|].
    rewrite (take_S_r _ _ _ Hx), (list_lookup_total_correct _ _ _ Hx).
    rewrite first_non_zero_from_snoc, foldl_snoc. f_equal.
    rewrite insert_app_r_alt
      by (rewrite first_non_zero_from_length, length_take; lia).
    rewrite first_non_zero_from_length, length_take.
    replace (k `min` length secret_list)%nat with k by lia.
    rewrite Nat.sub_diag.
    replace (length secret_list - k)%nat with (S (length secret_list - S k))
      by lia.
    simpl. by rewrite <- app_assoc.
Qed.

Lemma find_first_non_zero_eq (secret_list : list Z) :
  secret_list <> [] ->
  find_first_non_zero secret_list = Some (first_non_zero_from 0 secret_list).
Proof.
  intros Hne. unfold find_first_non_zero.
  destruct secret_list as [|x l] eqn:E; [done|]. rewrite <- E.
  rewrite first_non_zero_loop by done.
  rewrite firstn_all, Nat.sub_diag. simpl. by rewrite app_nil_r.
Qed.

Lemma first_non_zero_from_found (l : list Z) :
  Forall is_bit l -> first_non_zero_from 1 l = replicate (length l) 0.
Proof.
  induction 1 as [|x l Hx _ IH]; simpl; [done|].
  replace (real_or 1 x) with 1 by (unfold real_or; lia).
  rewrite IH. f_equal. lia.
Qed.

Lemma first_non_zero_from_bits (a : Z) (l : list Z) :
  is_bit a -> Forall is_bit l -> Forall is_bit (first_non_zero_from a l).
Proof.
  intros Ha Hl. revert a Ha.
  induction Hl as [|x l Hx _ IH]; intros a Ha; simpl; constructor.
  - unfold is_bit in *. destruct Ha as [-> | ->], Hx as [-> | ->]; lia.
  - apply IH. by apply is_bit_real_or.
Qed.

(** Where the mask holds a 1: at the position of a 1 that only zeros
    precede. *)
Lemma first_non_zero_from_one (l : list Z) (j : nat) :
  Forall is_bit l ->
  first_non_zero_from 0 l !! j = Some 1
  <-> l !! j = Some 1 /\ (forall i : nat, (i < j)%nat -> l !! i = Some 0).
Proof.
  intros Hl. revert j. induction Hl as [|x l Hx Hl IH]; intros j.
  - simpl. split; [intros [=]|intros [[=] _]].
  - simpl. destruct Hx as [-> | ->].
    + replace (real_or 0 0) with 0 by reflexivity.
      destruct j as [|j]; simpl.
      * split; [intros [=]|intros [[=] _]].
      * rewrite IH. split; intros [H1 H2]; (split; [done|]).
        -- intros [|i] Hi; simpl; [done|]. apply H2. lia.
        -- intros i Hi. apply (H2 (S i)). lia.
    + replace (real_or 0 1) with 1 by reflexivity.
      rewrite first_non_zero_from_found by done.
      destruct j as [|j]; simpl.
      * split; [intros _; split; [done|]; intros i Hi; lia|done].
      * split.
        -- intros H. apply lookup_replicate in H as [[=] _].
        -- intros [_ H]. specialize (H 0%nat). simpl in H.
           assert (Some 1 = Some 0) as [=] by (apply H; lia).
Qed.

Lemma first_non_zero_from_zero (l : list Z) :
  Forall is_bit l ->
  Forall (fun x => x = 0) (first_non_zero_from 0 l) <-> Forall (fun x => x = 0) l.
Proof.
  induction 1 as [|x l Hx Hl IH]; simpl; [done|].
  destruct Hx as [-> | ->].
  - replace (real_or 0 0) with 0 by reflexivity.
    split; intros H; inversion_clear H; constructor; try done; by apply IH.
  - split; intros H; inversion_clear H; lia.
Qed.

(** C5 (as amended). For every non-empty vector [v] of secret bits,
    [find_first_non_zero] returns a vector of the same length, of bits, whose
    entry [j] is 1 exactly when [v] holds a 1 at [j] and zeros before it; so
    at most one entry is 1, and the output is all-zero exactly when [v] is. *)
Theorem find_first_non_zero_spec (v : list Z) :
  v <> [] ->
  Forall is_bit v ->
  exists out : list Z,
    find_first_non_zero v = Some out
    /\ length out = length v
    /\ Forall is_bit out
    /\ (forall j : nat,
          out !! j = Some 1
          <-> v !! j = Some 1 /\ (forall i : nat, (i < j)%nat -> v !! i = Some 0))
    /\ (forall j k : nat, out !! j = Some 1 -> out !! k = Some 1 -> j = k)
    /\ (Forall (fun x => x = 0) out <-> Forall (fun x => x = 0) v).
Proof.
  intros Hne Hv. exists (first_non_zero_from 0 v).
  split; [by apply find_first_non_zero_eq|].
  split; [apply first_non_zero_from_length|].
  split; [apply first_non_zero_from_bits; [by left|done]|].
  split; [intros j; by apply first_non_zero_from_one|].
  split; [|by apply first_non_zero_from_zero].
  intros j k Hj Hk.
  apply first_non_zero_from_one in Hj as [Hj1 Hj0]; [|done].
  apply first_non_zero_from_one in Hk as [Hk1 Hk0]; [|done].
  destruct (Nat.lt_trichotomy j k) as [Hlt | [-> | Hlt]]; [|done|].
  - specialize (Hk0 j Hlt). congruence.
  - specialize (Hj0 k Hlt). congruence.
Qed.

Lemma find_first_non_zero_spec_witness :
  [1; 0; 1] <> [] /\ Forall is_bit [1; 0; 1]
  /\ exists out : list Z,
       find_first_non_zero [1; 0; 1] = Some out
       /\ length out = length [1; 0; 1]
       /\ Forall is_bit out
       /\ (forall j : nat,
             out !! j = Some 1
             <-> [1; 0; 1] !! j = Some 1
                 /\ (forall i : nat, (i < j)%nat -> [1; 0; 1] !! i = Some 0))
       /\ (forall j k : nat, out !! j = Some 1 -> out !! k = Some 1 -> j = k)
       /\ (Forall (fun x => x = 0) out <-> Forall (fun x => x = 0) [1; 0; 1]).
Proof.
  assert (Hne : [1; 0; 1] <> []) by discriminate.
  assert (Hv : Forall is_bit [1; 0; 1])
    by (repeat constructor; unfold is_bit; lia).
  split; [exact Hne|]. split; [exact Hv|].
  exact (find_first_non_zero_spec [1; 0; 1] Hne Hv).
Defined.

(** C5 (as stated) fails on the empty vector, which is a vector of bits:
    [type(secret_list[0])] raises and no vector is returned. *)
Lemma find_first_non_zero_empty_raises :
  Forall is_bit []
  /\ find_first_non_zero [] = None
  /\ ~ (exists out : list Z,
          find_first_non_zero [] = Some out /\ length out = length (@nil Z)).
Proof.
  split; [constructor|]. split; [reflexivity|].
  intros [out [H _]]. discriminate H.
Qed.

(** ** The assignment engine *)

Lemma is_bit_compatible self truck order :
  is_bit (Order.processed order) ->
  is_bit (MPCSolver.compatible self truck order).
Proof.
  intros Hp. unfold MPCSolver.compatible.
  pose proof (is_bit_eq (Truck.position truck) (Order.origin order)) as H1.
  pose proof (is_bit_real_or _ _
    (is_bit_eq (Truck.destination truck) (MPCSolver.dummy_node self))
    (is_bit_eq (Truck.destination truck) (Order.destination order))) as H2.
  pose proof (is_bit_ge (Truck.capacity truck - Order.volume order) 0) as H3.
  unfold is_bit in *.
  destruct H1 as [-> | ->], H2 as [-> | ->], H3 as [-> | ->], Hp as [-> | ->];
    lia.
Qed.

(** What a compatible pair satisfies. *)
Lemma compatible_1 self truck order :
  is_bit (Order.processed order) ->
  MPCSolver.compatible self truck order = 1 ->
  Order.processed order = 0
  /\ 0 <= Truck.capacity truck - Order.volume order
  /\ Truck.position truck = Order.origin order.
Proof.
  unfold MPCSolver.compatible, mpc.ge, mpc.eq. intros Hp H.
  destruct (Z.leb_spec 0 (Truck.capacity truck - Order.volume order));
    destruct (Z.eqb_spec (Truck.position truck) (Order.origin order));
    destruct Hp as [Hp | Hp]; rewrite Hp in H; try lia.
Qed.

(** The two outcomes of [_fill_truck_with_order] on an order whose
    [processed] flag is a bit: nothing changes, or the order is packed. *)
Lemma fill_truck_with_order_cases self truck order :
  is_bit (Order.processed order) ->
  (MPCSolver.compatible self truck order = 0
   /\ MPCSolver._fill_truck_with_order self truck order = (truck, order))
  \/ (MPCSolver.compatible self truck order = 1
      /\ MPCSolver._fill_truck_with_order self truck order
         = ({| Truck.capacity := Truck.capacity truck - Order.volume order;
               Truck.position := Truck.position truck;
               Truck.destination := Order.destination order;
               Truck.freighter_id := Truck.freighter_id truck;
               Truck.dist_to_order := Truck.dist_to_order truck |},
            {| Order.origin := Order.origin order;
               Order.destination := Order.destination order;
               Order.volume := Order.volume order;
               Order.processed := 1;
               Order.process_this_round := 1;
               Order.freighter_id := Truck.freighter_id truck |})).
Proof.
  intros Hp. unfold MPCSolver._fill_truck_with_order.
  destruct (is_bit_compatible self truck order Hp) as [Hc | Hc]; rewrite Hc;
    [left | right]; (split; [done|]).
  - rewrite !if_else_0. destruct truck, order; simpl.
    unfold real_or. f_equal; f_equal; lia.
  - rewrite !if_else_1. unfold real_or. f_equal; f_equal; lia.
Qed.

(** C9. A call of [_fill_truck_with_order] leaves the order's origin,
    destination and volume and the truck's position and freighter id as they
    were (and the truck's scratch distance too): only the truck's destination
    and capacity and the order's two flags and freighter id are assigned. *)
Theorem fill_truck_with_order_frame self truck order :
  let result := MPCSolver._fill_truck_with_order self truck order in
  Order.origin result.2 = Order.origin order
  /\ Order.destination result.2 = Order.destination order
  /\ Order.volume result.2 = Order.volume order
  /\ Truck.position result.1 = Truck.position truck
  /\ Truck.freighter_id result.1 = Truck.freighter_id truck
  /\ Truck.dist_to_order result.1 = Truck.dist_to_order truck.
Proof. simpl. repeat split. Qed.

(** *** The freighter id of an order *)

Lemma fill_order_with_trucks_cons self order truck trucks :
  fill_order_with_trucks self order (truck :: trucks)
  = fill_order_with_trucks self
      (MPCSolver._fill_truck_with_order self truck order).2 trucks.
Proof. reflexivity. Qed.

Lemma fill_order_with_trucks_processed self order trucks :
  Order.processed order = 1 ->
  fill_order_with_trucks self order trucks = order.
Proof.
  revert order. induction trucks as [|truck trucks IH]; intros order Hp;
    [done|].
  rewrite fill_order_with_trucks_cons.
  destruct (fill_truck_with_order_cases self truck order) as [[_ ->] | [Hc _]].
  - right; done.
  - by apply IH.
  - apply compatible_1 in Hc as [Hc _]; [lia | by right].
Qed.

Lemma fill_order_with_trucks_invariant self order trucks d :
  is_bit (Order.processed order) ->
  (Order.processed order = 0 -> Order.freighter_id order = d) ->
  let order' := fill_order_with_trucks self order trucks in
  is_bit (Order.processed order')
  /\ (Order.processed order' = 0 -> Order.freighter_id order' = d).
Proof.
  revert order. induction trucks as [|truck trucks IH]; intros order Hp Hd;
    [done|].
  rewrite fill_order_with_trucks_cons.
  destruct (fill_truck_with_order_cases self truck order Hp)
    as [[_ ->] | [_ ->]]; simpl.
  - by apply IH.
  - apply IH; simpl; [by right | lia].
Qed.

(** C8. Start from an order set up by [initialize_order] and call
    [_fill_truck_with_order] on it any number of times, with any trucks. As
    long as [processed] reveals to 0, [freighter_id] is the dummy freighter
    id; once [processed] reveals to 1, further calls change neither. *)
Theorem freighter_id_dummy_until_processed self order0 d trucks :
  let order := fill_order_with_trucks self (initialize_order order0 d) trucks in
  is_bit (Order.processed order)
  /\ (Order.processed order = 0 -> Order.freighter_id order = d)
  /\ (Order.processed order = 1 ->
      forall later : list Truck.t,
        let order' := fill_order_with_trucks self order later in
        Order.freighter_id order' = Order.freighter_id order
        /\ Order.processed order' = 1).
Proof.
  simpl.
  destruct (fill_order_with_trucks_invariant self (initialize_order order0 d)
              trucks d) as [Hb Hd]; simpl; [by left | done |].
  split; [done|]. split; [done|].
  intros Hp later. by rewrite fill_order_with_trucks_processed.
Qed.

(** *** The loops of [_fill_trucks] *)

Section FillLoops.

Variable self : MPCSolver.t.

Lemma evolves_refl order : evolves order order.
Proof. by repeat split. Qed.

Lemma evolves_trans o1 o2 o3 : evolves o1 o2 -> evolves o2 o3 -> evolves o1 o3.
Proof. unfold evolves. intros (?&?&?&?) (?&?&?&?). repeat split; congruence. Qed.

Lemma fill_truck_with_order_ok truck order :
  order_ok order ->
  0 <= Truck.capacity truck ->
  let result := MPCSolver._fill_truck_with_order self truck order in
  order_ok result.2 /\ evolves order result.2
  /\ 0 <= Truck.capacity result.1.
Proof.
  intros (Hp & Hr & Hle) Hcap.
  destruct (fill_truck_with_order_cases self truck order Hp)
    as [[_ ->] | [Hc ->]]; simpl.
  - split; [done|]. split; [apply evolves_refl | done].
  - apply compatible_1 in Hc as (Hp0 & Hge & _); [|done].
    split; [unfold order_ok, is_bit; simpl; lia|].
    split; [|done]. unfold evolves; simpl. repeat split.
    destruct Hr; lia.
Qed.

Lemma fill_truck_with_orders_cons truck order rest :
  MPCSolver.fill_truck_with_orders self truck (order :: rest)
  = let step := MPCSolver._fill_truck_with_order self truck order in
    let tail := MPCSolver.fill_truck_with_orders self step.1 rest in
    (tail.1, step.2 :: tail.2).
Proof.
  cbn [MPCSolver.fill_truck_with_orders].
  destruct (MPCSolver._fill_truck_with_order self truck order) as [t o].
  cbn [fst snd]. by destruct (MPCSolver.fill_truck_with_orders self t rest).
Qed.

Lemma fill_each_truck_cons truck rest orders :
  MPCSolver.fill_each_truck self (truck :: rest) orders
  = let inner := MPCSolver.fill_truck_with_orders self truck orders in
    let tail := MPCSolver.fill_each_truck self rest inner.2 in
    (MPCSolver.finish_truck self inner.1 :: tail.1, tail.2).
Proof.
  cbn [MPCSolver.fill_each_truck].
  destruct (MPCSolver.fill_truck_with_orders self truck orders) as [t os].
  cbn [fst snd]. by destruct (MPCSolver.fill_each_truck self rest os).
Qed.

(** The inner loop keeps the flags well formed, whatever the truck. *)
Lemma fill_truck_with_orders_evolves truck orders :
  Forall order_ok orders ->
  let result := MPCSolver.fill_truck_with_orders self truck orders in
  Forall order_ok result.2 /\ Forall2 evolves orders result.2.
Proof.
  intros Hok. revert truck.
  induction Hok as [|order orders Ho _ IH]; intros truck.
  - by split.
  - rewrite fill_truck_with_orders_cons. cbn zeta. cbn [fst snd].
    destruct Ho as (Hp & Hr & Hle).
    destruct (fill_truck_with_order_cases self truck order Hp)
      as [[_ ->] | [Hc ->]]; cbn [fst snd].
    + destruct (IH truck). split; constructor; try done.
    + apply compatible_1 in Hc as (Hp0 & _); [|done].
      match goal with
      | |- context [MPCSolver.fill_truck_with_orders self ?t orders] =>
          destruct (IH t)
      end.
      split; constructor; try done.
      * unfold order_ok, is_bit; simpl; lia.
      * unfold evolves; simpl. repeat split. destruct Hr; lia.
Qed.

(** The inner loop never drives the capacity of its truck below zero. *)
Lemma fill_truck_with_orders_capacity truck orders :
  Forall order_ok orders ->
  0 <= Truck.capacity truck ->
  0 <= Truck.capacity (MPCSolver.fill_truck_with_orders self truck orders).1.
Proof.
  intros Hok. revert truck.
  induction Hok as [|order orders Ho _ IH]; intros truck Hcap; [done|].
  rewrite fill_truck_with_orders_cons. cbn zeta. cbn [fst snd].
  apply IH. by apply fill_truck_with_order_ok.
Qed.

Lemma Forall2_evolves_trans l1 l2 l3 :
  Forall2 evolves l1 l2 -> Forall2 evolves l2 l3 -> Forall2 evolves l1 l3.
Proof.
  intros H. revert l3. induction H as [|x y l1 l2 Hxy _ IH]; intros l3 H23;
    inversion H23; subst; constructor; eauto using evolves_trans.
Qed.

Lemma Forall2_evolves_refl l : Forall2 evolves l l.
Proof. induction l; constructor; auto using evolves_refl. Qed.

(** After the outer loop every truck holds the configured capacity and
    the dummy destination. *)
Lemma fill_each_truck_ok trucks orders :
  Forall order_ok orders ->
  let result := MPCSolver.fill_each_truck self trucks orders in
  Forall order_ok result.2 /\ Forall2 evolves orders result.2
  /\ length result.1 = length trucks
  /\ Forall (fun truck =>
               Truck.capacity truck = MPCSolver.truck_capacity self
               /\ Truck.destination truck = MPCSolver.dummy_node self)
       result.1.
Proof.
  revert orders. induction trucks as [|truck trucks IH]; intros orders Hok.
  - split; [done|]. split; [apply Forall2_evolves_refl | done].
  - rewrite fill_each_truck_cons. cbn zeta. cbn [fst snd].
    destruct (fill_truck_with_orders_evolves truck orders Hok) as [Hok' Hev].
    destruct (IH _ Hok') as (IH1 & IH2 & IH3 & IH4).
    split; [done|]. split; [by eapply Forall2_evolves_trans|].
    split; [simpl; by rewrite IH3|]. by constructor.
Qed.

End FillLoops.

Lemma fill_trucks_spec self :
  Forall order_ok (MPCSolver.orders self) ->
  let self' := MPCSolver._fill_trucks self in
  Forall order_ok (MPCSolver.orders self')
  /\ Forall2 evolves (MPCSolver.orders self) (MPCSolver.orders self')
  /\ length (MPCSolver.trucks self') = length (MPCSolver.trucks self)
  /\ Forall (fun truck =>
               Truck.capacity truck = MPCSolver.truck_capacity self
               /\ Truck.destination truck = MPCSolver.dummy_node self)
       (MPCSolver.trucks self').
Proof.
  intros Hok. unfold MPCSolver._fill_trucks.
  pose proof (fill_each_truck_ok self (MPCSolver.trucks self) _ Hok) as H.
  by destruct (MPCSolver.fill_each_truck self (MPCSolver.trucks self)
                 (MPCSolver.orders self)).
Qed.

Lemma fill_trucks_config self :
  let self' := MPCSolver._fill_trucks self in
  MPCSolver.truck_capacity self' = MPCSolver.truck_capacity self
  /\ MPCSolver.dummy_node self' = MPCSolver.dummy_node self
  /\ MPCSolver.dummy_freighter_id self' = MPCSolver.dummy_freighter_id self
  /\ MPCSolver.map self' = MPCSolver.map self
  /\ MPCSolver.empty_drives self' = MPCSolver.empty_drives self
  /\ MPCSolver.num_processed_orders self' = MPCSolver.num_processed_orders self.
Proof.
  unfold MPCSolver._fill_trucks.
  by destruct (MPCSolver.fill_each_truck self (MPCSolver.trucks self)
                 (MPCSolver.orders self)).
Qed.

(** The uploaded problem: every order starts with well-formed flags. *)
Lemma init_orders_ok problem dfi dn tc self :
  MPCSolver.__init__ (prepare_mpc_data problem dfi dn) dfi dn tc = Some self ->
  Forall order_ok (MPCSolver.orders self)
  /\ MPCSolver.trucks self
     = (fun truck => initialize_truck (upload_truck truck) dn)
         <$> Problem.trucks problem
  /\ MPCSolver.truck_capacity self = tc
  /\ MPCSolver.num_processed_orders self = 0
  /\ MPCSolver.empty_drives self = [].
Proof.
  unfold MPCSolver.__init__. intros H.
  destruct (Problem.orders (prepare_mpc_data problem dfi dn)) eqn:E; [done|].
  injection H as <-. simpl. rewrite <- E. simpl. split; [|done].
  apply Forall_fmap, Forall_true. intros order.
  unfold order_ok, is_bit; simpl; lia.
Qed.

Lemma fill_trucks_iter_ok self n :
  Forall order_ok (MPCSolver.orders self) ->
  let state := Nat.iter n MPCSolver._fill_trucks self in
  Forall order_ok (MPCSolver.orders state)
  /\ MPCSolver.truck_capacity state = MPCSolver.truck_capacity self
  /\ ((0 < n)%nat ->
      Forall (fun truck => Truck.capacity truck = MPCSolver.truck_capacity self)
        (MPCSolver.trucks state)).
Proof.
  intros Hok. induction n as [|n IH]; simpl.
  - split; [done|]. split; [done | lia].
  - destruct IH as (IH1 & IH2 & _).
    destruct (fill_trucks_spec _ IH1) as (H1 & _ & _ & H4).
    destruct (fill_trucks_config (Nat.iter n MPCSolver._fill_trucks self))
      as (Hc & _).
    split; [done|]. split; [simpl in *; congruence|]. intros _.
    eapply Forall_impl; [|exact H4]. simpl. intros truck [Ht _]. congruence.
Qed.

(** C7 (as amended). Upload a problem whose trucks have non-negative
    capacities, with a non-negative configured maximum. After any number of calls of
    [_fill_trucks] every truck has a non-negative capacity and every
    [processed] flag is a bit; and on a bit flag, [_fill_truck_with_order]
    leaves a non-negative capacity non-negative: the order is packed only
    when [capacity - volume >= 0]. *)
Theorem capacity_never_negative problem dfi dn tc self (n : nat) :
  MPCSolver.__init__ (prepare_mpc_data problem dfi dn) dfi dn tc = Some self ->
  0 <= tc ->
  Forall (fun truck => 0 <= Truck.capacity truck) (Problem.trucks problem) ->
  let state := Nat.iter n MPCSolver._fill_trucks self in
  Forall (fun truck => 0 <= Truck.capacity truck) (MPCSolver.trucks state)
  /\ Forall (fun order => is_bit (Order.processed order)) (MPCSolver.orders state)
  /\ (forall truck order,
        is_bit (Order.processed order) ->
        0 <= Truck.capacity truck ->
        0 <= Truck.capacity (MPCSolver._fill_truck_with_order state truck order).1).
Proof.
  intros Hinit Htc Hcaps.
  destruct (init_orders_ok _ _ _ _ _ Hinit) as (Hok & Htrucks & Hcfg & _).
  destruct (fill_trucks_iter_ok self n Hok) as (H1 & H2 & H3).
  cbn zeta. split; [|split].
  - destruct n as [|n].
    + simpl. rewrite Htrucks. apply Forall_fmap.
      eapply Forall_impl; [|exact Hcaps]. by intros truck Ht.
    + eapply Forall_impl; [|apply H3; lia]. simpl. intros truck Ht. lia.
  - eapply Forall_impl; [|exact H1]. by intros order [Hp _].
  - intros truck order Hp Hcap.
    destruct (fill_truck_with_order_cases
                (Nat.iter n MPCSolver._fill_trucks self) truck order Hp)
      as [[_ ->] | [Hc ->]]; simpl; [done|].
    by apply compatible_1 in Hc as (_ & Hge & _).
Qed.

Lemma capacity_never_negative_witness :
  one_truck_one_order_solver 0 1 7 two_nodes 200 100 10
  = Some scenario_solver
  /\ 0 <= 10
  /\ Forall (fun truck => 0 <= Truck.capacity truck)
       (Problem.trucks (one_truck_one_order 0 1 7 two_nodes))
  /\ Forall (fun truck => 0 <= Truck.capacity truck)
       (MPCSolver.trucks (Nat.iter 3 MPCSolver._fill_trucks scenario_solver)).
Proof.
  assert (H1 : one_truck_one_order_solver 0 1 7 two_nodes 200 100 10
               = Some scenario_solver) by reflexivity.
  assert (H2 : 0 <= 10) by lia.
  assert (H3 : Forall (fun truck => 0 <= Truck.capacity truck)
                 (Problem.trucks (one_truck_one_order 0 1 7 two_nodes)))
    by (repeat constructor; simpl; lia).
  split; [exact H1|]. split; [exact H2|]. split; [exact H3|].
  exact (proj1 (capacity_never_negative
                  (one_truck_one_order 0 1 7 two_nodes) 200 100 10 _ 3 H1 H2 H3)).
Defined.

(** C7 (as stated) fails when the configured capacity is negative: the truck
    is uploaded with capacity 10, and the first call of [_fill_trucks] sets
    its capacity to the configured -5. *)
Lemma negative_truck_capacity_after_fill :
  one_truck_one_order_solver 0 1 7 two_nodes 200 100 (-5)
  = Some negative_capacity_solver
  /\ Forall (fun truck => 0 <= Truck.capacity truck)
       (Problem.trucks (one_truck_one_order 0 1 7 two_nodes))
  /\ MPCSolver.trucks (Nat.iter 1 MPCSolver._fill_trucks negative_capacity_solver)
     = [Truck.mk (-5) 1 100 7 None]
  /\ ~ Forall (fun truck => 0 <= Truck.capacity truck)
         (MPCSolver.trucks
            (Nat.iter 1 MPCSolver._fill_trucks negative_capacity_solver)).
Proof.
  split; [reflexivity|]. split; [repeat constructor; simpl; lia|].
  split; [reflexivity|].
  intros H. inversion_clear H as [|? ? Hcap _]. simpl in Hcap. lia.
Qed.

(** *** The scenario of one truck and one order *)

(** C1 (as amended). One truck of capacity 10 at [A] with the dummy
    destination, one order from [A] to [B] of volume 4, [B] not being the
    dummy node. After the call of [_fill_truck_with_order] the order reveals
    [processed = 1] and the truck's freighter id, the truck reveals capacity
    6 and destination [B]. After the whole of [_fill_trucks] the order still
    reveals [processed = 1] and the truck's freighter id, and the truck has
    been reset: capacity [truck_capacity], position [B], destination the
    dummy node. *)
Theorem one_truck_one_order_fill A B freighter map dfi dn tc self :
  one_truck_one_order_solver A B freighter map dfi dn tc = Some self ->
  B <> dn ->
  exists truck order,
    MPCSolver.trucks self = [truck]
    /\ MPCSolver.orders self = [order]
    /\ Truck.capacity truck = 10
    /\ Truck.destination truck = dn
    /\ (let result := MPCSolver._fill_truck_with_order self truck order in
        Order.processed result.2 = 1
        /\ Order.freighter_id result.2 = freighter
        /\ Truck.capacity result.1 = 6
        /\ Truck.destination result.1 = B)
    /\ (exists truck' order',
          MPCSolver.trucks (MPCSolver._fill_trucks self) = [truck']
          /\ MPCSolver.orders (MPCSolver._fill_trucks self) = [order']
          /\ Order.processed order' = 1
          /\ Order.freighter_id order' = freighter
          /\ Truck.capacity truck' = tc
          /\ Truck.position truck' = B
          /\ Truck.destination truck' = dn).
Proof.
  intros Hself HB. injection Hself as <-.
  assert (Hc : forall self,
             MPCSolver.dummy_node self = dn ->
             MPCSolver.compatible self (Truck.mk 10 A dn freighter None)
               (Order.mk A B 4 0 0 dfi) = 1).
  { intros self Hdn. unfold MPCSolver.compatible. simpl.
    rewrite Hdn, !eq_true by done. unfold real_or, mpc.ge. simpl.
    destruct (mpc.eq dn B); lia. }
  exists (Truck.mk 10 A dn freighter None), (Order.mk A B 4 0 0 dfi).
  split; [reflexivity|]. split; [reflexivity|].
  split; [reflexivity|]. split; [reflexivity|]. split.
  - unfold MPCSolver._fill_truck_with_order. rewrite Hc by done. simpl.
    rewrite !if_else_1. by repeat split.
  - unfold MPCSolver._fill_trucks. cbn [MPCSolver.trucks MPCSolver.orders].
    cbn [prepare_mpc_data one_truck_one_order Problem.trucks Problem.orders
         fmap list_fmap initialize_truck initialize_order upload_truck
         upload_order Truck.capacity Truck.position Truck.freighter_id
         Truck.dist_to_order Order.origin Order.destination Order.volume].
    cbn [MPCSolver.fill_each_truck MPCSolver.fill_truck_with_orders].
    unfold MPCSolver._fill_truck_with_order.
    rewrite Hc by done. simpl. rewrite !if_else_1.
    eexists _, _. split; [reflexivity|]. split; [reflexivity|]. simpl.
    rewrite (eq_false B dn HB). by rewrite if_else_1.
Qed.

Lemma one_truck_one_order_fill_witness :
  one_truck_one_order_solver 0 1 7 two_nodes 200 100 10 = Some scenario_solver
  /\ 1 <> 100
  /\ exists truck order,
       MPCSolver.trucks scenario_solver = [truck]
       /\ MPCSolver.orders scenario_solver = [order]
       /\ Truck.capacity truck = 10
       /\ Truck.destination truck = 100
       /\ (let result :=
             MPCSolver._fill_truck_with_order scenario_solver truck order in
           Order.processed result.2 = 1
           /\ Order.freighter_id result.2 = 7
           /\ Truck.capacity result.1 = 6
           /\ Truck.destination result.1 = 1)
       /\ (exists truck' order',
             MPCSolver.trucks (MPCSolver._fill_trucks scenario_solver) = [truck']
             /\ MPCSolver.orders (MPCSolver._fill_trucks scenario_solver)
                = [order']
             /\ Order.processed order' = 1
             /\ Order.freighter_id order' = 7
             /\ Truck.capacity truck' = 10
             /\ Truck.position truck' = 1
             /\ Truck.destination truck' = 100).
Proof.
  assert (H1 : one_truck_one_order_solver 0 1 7 two_nodes 200 100 10
               = Some scenario_solver) by reflexivity.
  assert (H2 : 1 <> 100) by lia.
  split; [exact H1|]. split; [exact H2|].
  exact (one_truck_one_order_fill 0 1 7 two_nodes 200 100 10 scenario_solver
           H1 H2).
Defined.

(** C1 (as stated) fails: at the end of [_fill_trucks] the capacity of the
    truck has been set back to the configured 10 and its destination to the
    dummy node 100; it is the position that reveals to [B = 1]. *)
Lemma one_fill_round_resets_truck :
  exists self,
    one_truck_one_order_solver 0 1 7 two_nodes 200 100 10 = Some self
    /\ MPCSolver.trucks (MPCSolver._fill_trucks self)
       = [Truck.mk 10 1 100 7 None]
    /\ MPCSolver.orders (MPCSolver._fill_trucks self)
       = [Order.mk 0 1 4 1 1 7]
    /\ ~ (exists truck order,
            MPCSolver.trucks (MPCSolver._fill_trucks self) = [truck]
            /\ MPCSolver.orders (MPCSolver._fill_trucks self) = [order]
            /\ Order.processed order = 1
            /\ Order.freighter_id order = 7
            /\ Truck.capacity truck = 6
            /\ Truck.destination truck = 1).
Proof.
  eexists. split; [reflexivity|]. split; [reflexivity|]. split; [reflexivity|].
  intros (truck & order & Ht & _ & _ & _ & Hcap & _).
  injection Ht as <-. discriminate Hcap.
Qed.

(** ** The final reveal *)

(** C2 (the code departs from it). On the problem whose first round stalls,
    [solve_problem] returns after two rounds, and among its outputs the
    origin, destination and volume of the order and both positions of the
    empty drive are sent to every party: whoever the owners are, the outputs
    are not private to them. *)
Theorem solve_problem_reveals_fields_to_all :
  exists final outs,
    MPCSolver.solve_problem 2 stalled_solver = Returned (final, outs)
    /\ In (mkOutput (OrderOrigin 0) 0 AllParties) outs
    /\ In (mkOutput (OrderDestination 0) 1 AllParties) outs
    /\ In (mkOutput (OrderVolume 0) 4 AllParties) outs
    /\ In (mkOutput (DriveClosestPosition 0) 1 AllParties) outs
    /\ In (mkOutput (DriveFirstUnprocessedOrigin 0) 0 AllParties) outs
    /\ (forall order_owner drive_owner : nat -> nat,
          ~ Forall (private_to_owner order_owner drive_owner) outs).
Proof.
  eexists _, _. split; [vm_compute; reflexivity|].
  do 5 (split; [simpl; tauto|]).
  intros order_owner drive_owner H.
  rewrite Forall_forall in H.
  specialize (H (mkOutput (OrderOrigin 0) 0 AllParties)).
  assert (Hall : private_to_owner order_owner drive_owner
                   (mkOutput (OrderOrigin 0) 0 AllParties))
    by (apply H; simpl; tauto).
  discriminate Hall.
Qed.

(** ** The repositioning engine *)

(** *** Counting flags *)

Lemma sum_bits_zero (l : list Z) :
  Forall is_bit l -> foldr Z.add 0 l = 0 -> Forall (fun x => x = 0) l.
Proof.
  induction 1 as [|x l Hx Hl IH]; simpl; intros Hsum; [done|].
  assert (0 <= foldr Z.add 0 l).
  { clear -Hl. induction Hl as [|y l [-> | ->] _ IH]; simpl; lia. }
  destruct Hx as [-> | ->]; [|lia]. constructor; [done|]. apply IH. lia.
Qed.

Lemma sum_evolves (l l' : list Order.t) :
  Forall2 evolves l l' ->
  foldr Z.add 0 (Order.processed <$> l')
  - foldr Z.add 0 (Order.process_this_round <$> l')
  = foldr Z.add 0 (Order.processed <$> l)
    - foldr Z.add 0 (Order.process_this_round <$> l).
Proof.
  induction 1 as [|o o' l l' (_ & _ & _ & He) _ IH]; csimpl; lia.
Qed.

Lemma evolves_origins (l l' : list Order.t) :
  Forall2 evolves l l' -> Order.origin <$> l' = Order.origin <$> l.
Proof.
  induction 1 as [|o o' l l' (He & _) _ IH]; csimpl; [done|]. by rewrite He, IH.
Qed.

(** Fewer processed orders than orders: some order is unprocessed. *)
Lemma first_unprocessed_exists (l : list Order.t) :
  Forall (fun order => is_bit (Order.processed order)) l ->
  foldr Z.add 0 (Order.processed <$> l) < Z.of_nat (length l) ->
  exists order, first_unprocessed l = Some order.
Proof.
  unfold first_unprocessed.
  induction 1 as [|o l Ho _ IH]; csimpl; intros Hlt; [lia|].
  destruct Ho as [Ho | Ho]; rewrite Ho in *; simpl.
  - by eexists.
  - apply IH. lia.
Qed.

(** *** Locating the first unprocessed origin *)

Lemma in_prod_cons x xs y ys :
  mpc.in_prod (x :: xs) (y :: ys) = x * y + mpc.in_prod xs ys.
Proof. reflexivity. Qed.

Lemma in_prod_zeros (x : list Z) (n : nat) :
  mpc.in_prod x (replicate n 0) = 0.
Proof.
  revert n. induction x as [|a x IH]; intros [|n]; try reflexivity.
  simpl replicate. rewrite in_prod_cons, IH. lia.
Qed.

Lemma first_unprocessed_origin_eq (orders : list Order.t) (order : Order.t) :
  Forall (fun order => is_bit (Order.processed order)) orders ->
  first_unprocessed orders = Some order ->
  mpc.in_prod (Order.origin <$> orders)
    (first_non_zero_from 0 ((fun order => 1 - Order.processed order) <$> orders))
  = Order.origin order.
Proof.
  unfold first_unprocessed.
  induction 1 as [|o l Ho Hl IH]; csimpl; intros Hfind; [done|].
  rewrite in_prod_cons.
  destruct Ho as [Ho | Ho]; rewrite Ho in *; simpl in Hfind.
  - injection Hfind as <-.
    replace (real_or 0 (1 - 0)) with 1 by reflexivity.
    rewrite first_non_zero_from_found, in_prod_zeros; [lia|].
    apply Forall_fmap. eapply Forall_impl; [|exact Hl].
    simpl. unfold is_bit. intros a [-> | ->]; lia.
  - replace (real_or 0 (1 - 1)) with 0 by reflexivity.
    rewrite IH by done. lia.
Qed.

Lemma locate_first_unprocessed_origin_eq self order :
  Forall (fun order => is_bit (Order.processed order)) (MPCSolver.orders self) ->
  first_unprocessed (MPCSolver.orders self) = Some order ->
  MPCSolver._locate_first_unprocessed_origin self
  = Some (Order.origin order,
          compute_indicator_vector (Map.num_positions (MPCSolver.map self))
            (Order.origin order)).
Proof.
  intros Hbits Hfind. unfold MPCSolver._locate_first_unprocessed_origin.
  rewrite find_first_non_zero_eq.
  - simpl. by rewrite (first_unprocessed_origin_eq _ _ Hbits Hfind).
  - destruct (MPCSolver.orders self); [discriminate Hfind | discriminate].
Qed.

(** *** The closest truck *)

Lemma argmin_from_range (x : list Z) (j : nat) (best : nat * Z) :
  (best.1 < j)%nat ->
  ((mpc.argmin_from j best x).1 < j + length x)%nat.
Proof.
  revert j best. induction x as [|v x IH]; intros j best Hb; simpl; [lia|].
  specialize (IH (S j) (if v <? best.2 then (j, v) else best)).
  destruct (v <? best.2); simpl in IH; lia.
Qed.

Lemma argmin_range (x : list Z) :
  x <> [] ->
  exists closest, mpc.argmin x = Some closest /\ (closest.1 < length x)%nat.
Proof.
  destruct x as [|v x]; [done|]. intros _. eexists. split; [reflexivity|].
  pose proof (argmin_from_range x 1 (0%nat, v)). simpl in *. lia.
Qed.

Lemma distances_are_set self vec (trucks : list Truck.t) :
  exists dists,
    mapM Truck.dist_to_order
      ((fun truck =>
          MPCSolver._find_truck_dist_to_order self truck vec
            (Map.route_matrix (MPCSolver.map self))) <$> trucks)
    = Some dists
    /\ length dists = length trucks.
Proof.
  induction trucks as [|truck trucks [dists [IH Hlen]]].
  - by exists [].
  - rewrite fmap_cons. cbn [mapM]. rewrite IH. cbn.
    eexists. split; [reflexivity|]. simpl. by rewrite Hlen.
Qed.

Lemma select_truck_field_skip field (index : Z) (j : nat) trucks acc :
  index < Z.of_nat j ->
  MPCSolver.select_truck_field field index j trucks acc = acc.
Proof.
  revert j acc. induction trucks as [|truck trucks IH]; intros j acc Hlt;
    simpl; [done|].
  rewrite eq_false, if_else_0 by lia. apply IH. lia.
Qed.

(** The select chain returns the field of the truck at the secret index. *)
Lemma select_truck_field_at field (k j : nat) trucks acc truck :
  trucks !! k = Some truck ->
  MPCSolver.select_truck_field field (Z.of_nat (j + k)) j trucks acc
  = field truck.
Proof.
  revert k j acc. induction trucks as [|t trucks IH]; intros k j acc Hk;
    [done|].
  destruct k as [|k]; simpl in *.
  - injection Hk as ->. rewrite eq_true, if_else_1 by (f_equal; lia).
    apply select_truck_field_skip. lia.
  - rewrite eq_false, if_else_0 by lia.
    replace (j + S k)%nat with (S j + k)%nat by lia. by apply IH.
Qed.

(** [_move_truck] changes the position of the truck at the index and of no
    other truck. *)
Lemma move_truck_lookup self (k : nat) destination (j : nat) :
  MPCSolver.trucks (MPCSolver._move_truck self (Z.of_nat k) destination) !! j
  = (fun truck =>
       {| Truck.capacity := Truck.capacity truck;
          Truck.position :=
            if decide (j = k) then destination else Truck.position truck;
          Truck.destination := Truck.destination truck;
          Truck.freighter_id := Truck.freighter_id truck;
          Truck.dist_to_order := Truck.dist_to_order truck |})
    <$> MPCSolver.trucks self !! j.
Proof.
  unfold MPCSolver._move_truck. cbn [MPCSolver.trucks MPCSolver.set_trucks].
  rewrite list_lookup_imap.
  destruct (MPCSolver.trucks self !! j) as [truck|]; [|done]. simpl.
  do 2 f_equal. destruct (decide (j = k)) as [-> | Hne].
  - by rewrite eq_true, if_else_1.
  - rewrite eq_false, if_else_0 by lia. done.
Qed.

(** What one run of the repositioning engine does when some order is
    unprocessed and the fleet is not empty. *)
Lemma create_empty_truck_drive_spec self order :
  Forall (fun order => is_bit (Order.processed order)) (MPCSolver.orders self) ->
  first_unprocessed (MPCSolver.orders self) = Some order ->
  MPCSolver.trucks self <> [] ->
  exists self' (k : nat) closest,
    MPCSolver._create_empty_truck_drive self = Some self'
    /\ MPCSolver.orders self' = MPCSolver.orders self
    /\ MPCSolver.num_processed_orders self' = MPCSolver.num_processed_orders self
    /\ MPCSolver.truck_capacity self' = MPCSolver.truck_capacity self
    /\ length (MPCSolver.trucks self') = length (MPCSolver.trucks self)
    /\ MPCSolver.trucks self !! k = Some closest
    /\ MPCSolver.empty_drives self'
       = MPCSolver.empty_drives self
         ++ [EmptyDrive.mk (Truck.freighter_id closest) (Truck.position closest)
               (Order.origin order)]
    /\ (forall j truck',
          MPCSolver.trucks self' !! j = Some truck' ->
          exists truck,
            MPCSolver.trucks self !! j = Some truck
            /\ Truck.position truck'
               = (if decide (j = k) then Order.origin order
                  else Truck.position truck)
            /\ Truck.capacity truck' = Truck.capacity truck
            /\ Truck.destination truck' = Truck.destination truck
            /\ Truck.freighter_id truck' = Truck.freighter_id truck).
Proof.
  intros Hbits Hfind Hne. unfold MPCSolver._create_empty_truck_drive.
  rewrite (locate_first_unprocessed_origin_eq self order Hbits Hfind).
  cbn [mbind option_bind].
  set (vec := compute_indicator_vector _ _).
  unfold MPCSolver._find_distances_to_order.
  set (measured := _ <$> MPCSolver.trucks self).
  cbn [MPCSolver.trucks MPCSolver.set_trucks].
  destruct (distances_are_set self vec (MPCSolver.trucks self))
    as (dists & Hdists & Hlen).
  fold measured in Hdists. rewrite Hdists. cbn [mbind option_bind].
  destruct (argmin_range dists) as ([k v] & Hmin & Hk).
  { intros ->. destruct (MPCSolver.trucks self); [done | discriminate Hlen]. }
  rewrite Hmin. cbn [mbind option_bind fst].
  simpl in Hk. rewrite Hlen in Hk.
  destruct (lookup_lt_is_Some_2 (MPCSolver.trucks self) k Hk) as [closest Hc].
  assert (Hm : measured !! k
               = Some (MPCSolver._find_truck_dist_to_order self closest vec
                         (Map.route_matrix (MPCSolver.map self))))
    by (subst measured; by rewrite list_lookup_fmap, Hc).
  eexists _, k, closest. split; [reflexivity|].
  split; [reflexivity|]. split; [reflexivity|]. split; [reflexivity|].
  split.
  { unfold MPCSolver._move_truck. cbn [MPCSolver.trucks MPCSolver.set_trucks
      MPCSolver.set_empty_drives]. subst measured.
    by rewrite length_imap, length_fmap. }
  split; [done|]. split.
  { unfold MPCSolver._move_truck, MPCSolver._find_freighter_id,
      MPCSolver._find_truck_position.
    cbn [MPCSolver.empty_drives MPCSolver.set_trucks MPCSolver.set_empty_drives
         MPCSolver.trucks MPCSolver.dummy_node MPCSolver.dummy_freighter_id].
    rewrite (select_truck_field_at Truck.freighter_id k 0 measured _ _ Hm).
    rewrite (select_truck_field_at Truck.position k 0 measured _ _ Hm).
    reflexivity. }
  intros j truck' Hj. rewrite move_truck_lookup in Hj.
  cbn [MPCSolver.trucks MPCSolver.set_trucks MPCSolver.set_empty_drives] in Hj.
  subst measured. rewrite list_lookup_fmap in Hj.
  destruct (MPCSolver.trucks self !! j) as [truck|]; [|discriminate Hj].
  simpl in Hj. injection Hj as <-. exists truck. by repeat split.
Qed.

(** ** The round controller *)

Lemma reset_orders_ok (orders : list Order.t) :
  Forall order_ok orders ->
  Forall order_ok (MPCSolver.reset_order <$> orders)
  /\ Forall (fun order => Order.process_this_round order = 0)
       (MPCSolver.reset_order <$> orders)
  /\ foldr Z.add 0 (Order.processed <$> (MPCSolver.reset_order <$> orders))
     = foldr Z.add 0 (Order.processed <$> orders)
  /\ first_unprocessed (MPCSolver.reset_order <$> orders)
     = MPCSolver.reset_order <$> first_unprocessed orders.
Proof.
  unfold first_unprocessed.
  induction 1 as [|order orders (Hp & _ & _) _ (IH1 & IH2 & IH3 & IH4)]; csimpl.
  - by repeat split.
  - split; [constructor; [|done]; unfold order_ok, is_bit in *; simpl; lia|].
    split; [by constructor|]. split; [by rewrite IH3|].
    destruct (Order.processed order =? 0); [done | exact IH4].
Qed.

Lemma sum_zero (l : list Order.t) :
  Forall (fun order => Order.process_this_round order = 0) l ->
  foldr Z.add 0 (Order.process_this_round <$> l) = 0.
Proof. induction 1 as [|o l Ho _ IH]; csimpl; [done | lia]. Qed.

(** One round, from a state between rounds with a fleet that is not empty
    and an order still to process. *)
Lemma round_spec self :
  between_rounds self ->
  MPCSolver.trucks self <> [] ->
  MPCSolver.num_processed_orders self
    < Z.of_nat (length (MPCSolver.orders self)) ->
  let filled := MPCSolver._fill_trucks self in
  exists self',
    MPCSolver.round self
    = Some (self',
            mkOutput NumAddedOrders (MPCSolver.num_added_orders filled) AllParties)
    /\ between_rounds self'
    /\ length (MPCSolver.trucks self') = length (MPCSolver.trucks self)
    /\ MPCSolver.orders self' = MPCSolver.reset_order <$> MPCSolver.orders filled
    /\ (MPCSolver.num_added_orders filled <> 0 ->
        MPCSolver.empty_drives self' = MPCSolver.empty_drives self
        /\ MPCSolver.trucks self' = MPCSolver.trucks filled)
    /\ (MPCSolver.num_added_orders filled = 0 ->
        exists order (k : nat) closest,
          first_unprocessed (MPCSolver.orders filled) = Some order
          /\ MPCSolver.trucks filled !! k = Some closest
          /\ MPCSolver.empty_drives self'
             = MPCSolver.empty_drives self
               ++ [EmptyDrive.mk (Truck.freighter_id closest)
                     (Truck.position closest) (Order.origin order)]
          /\ (forall j truck',
                MPCSolver.trucks self' !! j = Some truck' ->
                exists truck,
                  MPCSolver.trucks filled !! j = Some truck
                  /\ Truck.position truck'
                     = (if decide (j = k) then Order.origin order
                        else Truck.position truck))).
Proof.
  intros (Hok & Hzero & Hnum) Hne Hlt filled.
  destruct (fill_trucks_spec self Hok) as (Hok' & Hev & Hlen & _).
  destruct (fill_trucks_config self) as (_ & _ & _ & _ & Hdrives & Hnum').
  fold filled in Hok', Hev, Hlen, Hdrives, Hnum'.
  pose proof (sum_evolves _ _ Hev) as Hsum.
  rewrite (sum_zero _ Hzero), <- Hnum in Hsum.
  destruct (reset_orders_ok _ Hok') as (R1 & R2 & R3 & _).
  unfold MPCSolver.round. fold filled.
  unfold MPCSolver.num_added_orders in *.
  set (n := foldr Z.add 0 (Order.process_this_round <$> MPCSolver.orders filled))
    in *.
  destruct (Z.eqb_spec n 0) as [Hn | Hn].
  - assert (Hbits : Forall (fun order => is_bit (Order.processed order))
                      (MPCSolver.orders filled))
      by (eapply Forall_impl; [|exact Hok']; by intros o [Hp _]).
    destruct (first_unprocessed_exists _ Hbits) as [order Hfind].
    { pose proof Hev as Hlen2. apply Forall2_length in Hlen2. lia. }
    destruct (create_empty_truck_drive_spec filled order Hbits Hfind)
      as (moved & k & closest & Hrun & Ho & Hp & _ & Hl & Hk & Hd & Ht).
    { intros E. rewrite E in Hlen. destruct (MPCSolver.trucks self); done. }
    rewrite Hrun. cbn [mbind option_bind].
    eexists. split; [reflexivity|].
    cbn [MPCSolver.orders MPCSolver.set_orders MPCSolver.trucks
         MPCSolver.set_num_processed_orders MPCSolver.empty_drives
         MPCSolver.num_processed_orders].
    rewrite Ho. split; [|split; [congruence|split; [done|split; [done|]]]].
    + split; [done|]. split; [done|].
      simpl. rewrite R3. lia.
    + intros _. exists order, k, closest.
      split; [done|]. split; [done|]. split; [congruence|].
      intros j truck' Hj. destruct (Ht j truck' Hj) as (truck & H1 & H2 & _).
      by exists truck.
  - cbn [mbind option_bind]. eexists. split; [reflexivity|].
    cbn [MPCSolver.orders MPCSolver.set_orders MPCSolver.trucks
         MPCSolver.set_num_processed_orders MPCSolver.empty_drives
         MPCSolver.num_processed_orders].
    split; [|split; [done|split; [done|split; [done|done]]]].
    split; [done|]. split; [done|].
    simpl. rewrite R3. lia.
Qed.

Lemma initialized_orders_unprocessed (orders : list Order.t) d :
  foldr Z.add 0
    (Order.processed
       <$> ((fun order => initialize_order (upload_order order) d) <$> orders))
  = 0.
Proof. induction orders as [|o os IH]; csimpl; [done | lia]. Qed.

Lemma init_between_rounds problem dfi dn tc start :
  MPCSolver.__init__ (prepare_mpc_data problem dfi dn) dfi dn tc = Some start ->
  between_rounds start.
Proof.
  intros Hinit.
  destruct (init_orders_ok _ _ _ _ _ Hinit) as (Hok & _ & _ & Hnum & _).
  split; [done|]. unfold MPCSolver.__init__ in Hinit.
  destruct (Problem.orders (prepare_mpc_data problem dfi dn)) eqn:E; [done|].
  injection Hinit as <-. cbn [MPCSolver.orders MPCSolver.num_processed_orders].
  rewrite <- E. cbn [prepare_mpc_data Problem.orders]. split.
  - apply Forall_fmap, Forall_true. by intros order.
  - by rewrite initialized_orders_unprocessed.
Qed.

(** Every state the loop of [solve_problem] reaches from an uploaded
    problem lies between two rounds and has the fleet of the problem. *)
Lemma reachable_between_rounds problem dfi dn tc start self :
  MPCSolver.__init__ (prepare_mpc_data problem dfi dn) dfi dn tc = Some start ->
  Problem.trucks problem <> [] ->
  reachable start self ->
  between_rounds self /\ MPCSolver.trucks self <> [].
Proof.
  intros Hinit Hne Hreach.
  destruct (init_orders_ok _ _ _ _ _ Hinit) as (Hok & Htrucks & _ & Hnum & _).
  induction Hreach as [|self self' out _ [IH1 IH2] Hlt Hround].
  - split; [by eapply init_between_rounds|].
    rewrite Htrucks. by destruct (Problem.trucks problem).
  - destruct (round_spec self IH1 IH2 Hlt) as (self'' & Hr & Hb & Hl & _).
    rewrite Hround in Hr. injection Hr as <- _.
    split; [done|]. intros E. rewrite E in Hl.
    destruct (MPCSolver.trucks self); done.
Qed.

(** The state in which the loop of [solve_problem] ends is one of them. *)
Lemma rounds_reachable start (fuel : nat) self final outs :
  reachable start self ->
  MPCSolver.rounds fuel self = Returned (final, outs) ->
  reachable start final.
Proof.
  revert self outs. induction fuel as [|fuel IH]; intros self outs Hreach;
    cbn [MPCSolver.rounds];
    destruct (Z.ltb_spec (MPCSolver.num_processed_orders self)
                (Z.of_nat (length (MPCSolver.orders self)))) as [Hlt | Hge];
    try (intros [= <- _]; exact Hreach); try discriminate.
  destruct (MPCSolver.round self) as [[self' out]|] eqn:Hround; [|discriminate].
  destruct (MPCSolver.rounds fuel self') as [[final' outs']| |] eqn:Hrest;
    try discriminate.
  intros [= <- _]. eapply IH; [|exact Hrest].
  by eapply reachable_round.
Qed.

(** C3 (as amended). Take any round that [solve_problem] runs on an uploaded
    problem with a fleet that is not empty and a well-formed map. If the
    revealed count of the round is 0, the round appends exactly one
    [EmptyDrive], whose target is the origin of the first unprocessed order
    and whose start and freighter are those of the closest truck; at the end
    of the round that truck stands at that origin and every other truck
    stands where the fill left it. If the revealed count is not 0, the list
    of empty drives is unchanged. *)
Theorem stalled_round_appends_one_empty_drive problem dfi dn tc start self :
  MPCSolver.__init__ (prepare_mpc_data problem dfi dn) dfi dn tc = Some start ->
  Problem.trucks problem <> [] ->
  well_formed_map (Problem.map problem) ->
  reachable start self ->
  MPCSolver.num_processed_orders self
    < Z.of_nat (length (MPCSolver.orders self)) ->
  let filled := MPCSolver._fill_trucks self in
  exists self',
    MPCSolver.round self
    = Some (self',
            mkOutput NumAddedOrders (MPCSolver.num_added_orders filled) AllParties)
    /\ (MPCSolver.num_added_orders filled <> 0 ->
        MPCSolver.empty_drives self' = MPCSolver.empty_drives self)
    /\ (MPCSolver.num_added_orders filled = 0 ->
        exists order drive (k : nat) closest moved,
          first_unprocessed (MPCSolver.orders filled) = Some order
          /\ Order.origin <$> first_unprocessed (MPCSolver.orders self')
             = Some (Order.origin order)
          /\ MPCSolver.empty_drives self'
             = MPCSolver.empty_drives self ++ [drive]
          /\ EmptyDrive.first_unprocessed_origin drive = Order.origin order
          /\ MPCSolver.trucks filled !! k = Some closest
          /\ EmptyDrive.closest_position drive = Truck.position closest
          /\ EmptyDrive.freighter_id drive = Truck.freighter_id closest
          /\ MPCSolver.trucks self' !! k = Some moved
          /\ Truck.position moved = Order.origin order
          /\ (forall j truck',
                j <> k ->
                MPCSolver.trucks self' !! j = Some truck' ->
                exists truck,
                  MPCSolver.trucks filled !! j = Some truck
                  /\ Truck.position truck' = Truck.position truck)).
Proof.
  intros Hinit Hne _ Hreach Hlt filled.
  destruct (reachable_between_rounds _ _ _ _ _ _ Hinit Hne Hreach)
    as [Hbetween Hfleet].
  destruct (round_spec self Hbetween Hfleet Hlt)
    as (self' & Hround & _ & Hlen & Horders & Hprogress & Hstall).
  fold filled in Hround, Horders, Hprogress, Hstall.
  exists self'. split; [done|]. split.
  - intros Hn. by destruct (Hprogress Hn).
  - intros Hn.
    destruct (Hstall Hn) as (order & k & closest & Hfind & Hk & Hd & Ht).
    assert (Hok' : Forall order_ok (MPCSolver.orders filled))
      by (by destruct (fill_trucks_spec self (proj1 Hbetween))).
    destruct (reset_orders_ok _ Hok') as (_ & _ & _ & R4).
    assert (Hk' : (k < length (MPCSolver.trucks self'))%nat).
    { rewrite Hlen.
      destruct (fill_trucks_spec self (proj1 Hbetween)) as (_ & _ & <- & _).
      by eapply lookup_lt_Some. }
    destruct (lookup_lt_is_Some_2 _ _ Hk') as [moved Hm].
    eexists order, _, k, closest, moved.
    split; [done|]. split; [by rewrite Horders, R4, Hfind|].
    split; [exact Hd|]. split; [done|]. split; [done|]. split; [done|].
    split; [done|]. split; [done|]. split.
    + destruct (Ht k moved Hm) as (truck & _ & Hpos).
      by rewrite decide_True in Hpos.
    + intros j truck' Hj Hlook.
      destruct (Ht j truck' Hlook) as (truck & Hf & Hpos).
      exists truck. split; [done|]. by rewrite decide_False in Hpos.
Qed.

Lemma stalled_round_appends_one_empty_drive_witness :
  MPCSolver.__init__ (prepare_mpc_data stalled_problem 200 100) 200 100 10
  = Some stalled_solver
  /\ Problem.trucks stalled_problem <> []
  /\ well_formed_map (Problem.map stalled_problem)
  /\ reachable stalled_solver stalled_solver
  /\ MPCSolver.num_processed_orders stalled_solver
     < Z.of_nat (length (MPCSolver.orders stalled_solver))
  /\ exists self',
       MPCSolver.round stalled_solver
       = Some (self',
               mkOutput NumAddedOrders
                 (MPCSolver.num_added_orders
                    (MPCSolver._fill_trucks stalled_solver)) AllParties).
Proof.
  assert (H1 : MPCSolver.__init__ (prepare_mpc_data stalled_problem 200 100)
                 200 100 10 = Some stalled_solver) by reflexivity.
  assert (H2 : Problem.trucks stalled_problem <> []) by discriminate.
  assert (Hmap : well_formed_map (Problem.map stalled_problem))
    by (split; [reflexivity | repeat constructor]).
  assert (H3 : reachable stalled_solver stalled_solver) by constructor.
  assert (H4 : MPCSolver.num_processed_orders stalled_solver
               < Z.of_nat (length (MPCSolver.orders stalled_solver)))
    by (simpl; lia).
  split; [exact H1|]. split; [exact H2|]. split; [exact Hmap|].
  split; [exact H3|]. split; [exact H4|].
  destruct (stalled_round_appends_one_empty_drive
              stalled_problem 200 100 10 stalled_solver stalled_solver
              H1 H2 Hmap H3 H4) as (self' & Hround & _).
  exists self'. exact Hround.
Defined.

(** C3 (as stated) fails on a fleet without trucks: the first round of the
    uploaded problem reveals the count 0, and the repositioning raises at
    [mpc.argmin] on the empty list of distances, so no [EmptyDrive] is
    appended and [solve_problem] raises. *)
Lemma stalled_round_raises_without_trucks :
  MPCSolver.__init__ (prepare_mpc_data no_truck_problem 200 100) 200 100 10
  = Some no_truck_solver
  /\ reachable no_truck_solver no_truck_solver
  /\ MPCSolver.num_processed_orders no_truck_solver
     < Z.of_nat (length (MPCSolver.orders no_truck_solver))
  /\ MPCSolver.num_added_orders (MPCSolver._fill_trucks no_truck_solver) = 0
  /\ MPCSolver._create_empty_truck_drive (MPCSolver._fill_trucks no_truck_solver)
     = None
  /\ MPCSolver.round no_truck_solver = None
  /\ ~ (exists self' out drive,
          MPCSolver.round no_truck_solver = Some (self', out)
          /\ MPCSolver.empty_drives self'
             = MPCSolver.empty_drives no_truck_solver ++ [drive])
  /\ MPCSolver.solve_problem 1 no_truck_solver = Raised.
Proof.
  split; [reflexivity|]. split; [constructor|]. split; [simpl; lia|].
  split; [reflexivity|]. split; [reflexivity|]. split; [reflexivity|].
  split; [|reflexivity].
  intros (self' & out & drive & Hround & _). discriminate Hround.
Qed.

(** The stalled round of that problem, evaluated: one empty drive from node
    1 to node 0 for freighter 7, and the truck moved to node 0. *)
Example stalled_round_run :
  MPCSolver.round stalled_solver
  = Some (MPCSolver.mk [Truck.mk 10 0 100 7 (Some 3)] [Order.mk 0 1 4 0 0 200]
            two_nodes [EmptyDrive.mk 7 1 0] 200 100 10 0,
          mkOutput NumAddedOrders 0 AllParties).
Proof. reflexivity. Qed.

(** * Further properties of the code *)

(** ** [real_or] on arbitrary integers *)

(** X1. [real_or] is commutative and associative on all integers, 0 is its
    neutral element and 1 absorbs. *)
Theorem real_or_algebra (a b c : Z) :
  real_or a b = real_or b a
  /\ real_or a (real_or b c) = real_or (real_or a b) c
  /\ real_or 0 a = a
  /\ real_or 1 a = 1.
Proof. unfold real_or. repeat split; ring. Qed.

(** ** Reading a vector at a secret index *)

Lemma in_prod_nil_l (y : list Z) : mpc.in_prod [] y = 0.
Proof. reflexivity. Qed.

Lemma in_prod_zeros_l (n : nat) (y : list Z) :
  mpc.in_prod (replicate n 0) y = 0.
Proof.
  revert y. induction n as [|n IH]; intros [|b y]; try reflexivity.
  simpl replicate. rewrite in_prod_cons, IH. lia.
Qed.

(** The inner product with the comparisons of the positions [start],
    [start + 1], ... against the index. *)
Lemma in_prod_comparisons (v : list Z) (start : nat) (index : Z) :
  mpc.in_prod
    ((fun j => mpc.eq (Z.of_nat j) index) <$> seq start (length v)) v
  = default 0 (lookup_index v (index - Z.of_nat start)).
Proof.
  revert start. induction v as [|x v IH]; intros start.
  - unfold lookup_index. simpl.
    destruct (0 <=? index - Z.of_nat start); [|done].
    by rewrite lookup_nil.
  - cbn [length seq]. rewrite fmap_cons, in_prod_cons, IH.
    unfold lookup_index, mpc.eq.
    destruct (Z.eqb_spec (Z.of_nat start) index) as [<- | Hne].
    + rewrite Z.sub_diag. simpl.
      destruct (Z.leb_spec 0 (Z.of_nat start - Z.of_nat (S start))); [lia|].
      simpl. lia.
    + destruct (Z.leb_spec 0 (index - Z.of_nat (S start))) as [Hle | Hlt].
      * destruct (Z.leb_spec 0 (index - Z.of_nat start)); [|lia].
        replace (Z.to_nat (index - Z.of_nat start))
          with (S (Z.to_nat (index - Z.of_nat (S start)))) by lia.
        simpl. lia.
      * destruct (Z.leb_spec 0 (index - Z.of_nat start)); [lia|]. simpl. lia.
Qed.

Lemma in_prod_indicator_vector (v : list Z) (index : Z) :
  mpc.in_prod (compute_indicator_vector (length v) index) v
  = default 0 (lookup_index v index).
Proof.
  rewrite compute_indicator_vector_eq, in_prod_comparisons.
  by rewrite Z.sub_0_r.
Qed.

(** X2. The inner product of [compute_indicator_vector(len(v), index)] with
    [v] is the entry of [v] at the secret index, and 0 when the index is not
    a position of [v]. *)
Theorem indicator_vector_reads_entry (v : list Z) (index : Z) :
  mpc.in_prod (compute_indicator_vector (length v) index) v
  = default 0 (lookup_index v index).
Proof.
  revert v index.
  exact in_prod_indicator_vector.
Qed.

(** ** Reading and moving a truck at a secret index *)

Lemma select_truck_field_eq field (index : Z) (j : nat) trucks acc :
  MPCSolver.select_truck_field field index j trucks acc
  = default acc (field <$> lookup_index trucks (index - Z.of_nat j)).
Proof.
  revert j acc. induction trucks as [|truck trucks IH]; intros j acc.
  - unfold lookup_index. simpl.
    destruct (0 <=? index - Z.of_nat j); [|done]. by rewrite lookup_nil.
  - cbn [MPCSolver.select_truck_field]. rewrite IH. unfold lookup_index.
    destruct (Z.eqb_spec (Z.of_nat j) index) as [<- | Hne].
    + rewrite eq_true, if_else_1, Z.sub_diag by done. simpl.
      by destruct (Z.leb_spec 0 (Z.of_nat j - Z.of_nat (S j))); [lia|].
    + rewrite eq_false, if_else_0 by done.
      destruct (Z.leb_spec 0 (index - Z.of_nat (S j))) as [Hle | Hlt].
      * destruct (Z.leb_spec 0 (index - Z.of_nat j)); [|lia].
        replace (Z.to_nat (index - Z.of_nat j))
          with (S (Z.to_nat (index - Z.of_nat (S j)))) by lia.
        done.
      * destruct (Z.leb_spec 0 (index - Z.of_nat j)) as [Hle | _]; [|done].
        replace (Z.to_nat (index - Z.of_nat j)) with 0%nat by lia.
        simpl. lia.
Qed.

(** X3. [_find_truck_position] returns the position of the truck at the
    secret index, and the dummy node when the index is not a position of the
    fleet. *)
Theorem find_truck_position_spec self (truck_index : Z) :
  MPCSolver._find_truck_position self truck_index
  = default (MPCSolver.dummy_node self)
      (Truck.position <$> lookup_index (MPCSolver.trucks self) truck_index).
Proof.
  unfold MPCSolver._find_truck_position.
  by rewrite select_truck_field_eq, Z.sub_0_r.
Qed.

(** X4. [_find_freighter_id] returns the freighter id of the truck at the
    secret index, and the dummy freighter id when the index is not a position
    of the fleet. *)
Theorem find_freighter_id_spec self (truck_index : Z) :
  MPCSolver._find_freighter_id self truck_index
  = default (MPCSolver.dummy_freighter_id self)
      (Truck.freighter_id <$> lookup_index (MPCSolver.trucks self) truck_index).
Proof.
  unfold MPCSolver._find_freighter_id.
  by rewrite select_truck_field_eq, Z.sub_0_r.
Qed.

Lemma set_trucks_same self : MPCSolver.set_trucks self (MPCSolver.trucks self) = self.
Proof. by destruct self. Qed.

(** X5. [_move_truck] gives the destination as position to the truck at the
    secret index and leaves every other truck, and everything else in the
    solver, as it was; with an index that is not a position of the fleet it
    changes nothing at all. *)
Theorem move_truck_spec self (truck_index destination : Z) :
  let self' := MPCSolver._move_truck self truck_index destination in
  length (MPCSolver.trucks self') = length (MPCSolver.trucks self)
  /\ MPCSolver.orders self' = MPCSolver.orders self
  /\ MPCSolver.empty_drives self' = MPCSolver.empty_drives self
  /\ (forall (j : nat) truck,
        MPCSolver.trucks self !! j = Some truck ->
        MPCSolver.trucks self' !! j
        = Some (if decide (Z.of_nat j = truck_index)
                then Truck.mk (Truck.capacity truck) destination
                       (Truck.destination truck) (Truck.freighter_id truck)
                       (Truck.dist_to_order truck)
                else truck))
  /\ (lookup_index (MPCSolver.trucks self) truck_index = None -> self' = self).
Proof.
  cbn zeta. unfold MPCSolver._move_truck.
  cbn [MPCSolver.trucks MPCSolver.orders MPCSolver.empty_drives
       MPCSolver.set_trucks].
  split; [by rewrite length_imap|]. split; [done|]. split; [done|].
  assert (Hlook : forall (j : nat) truck,
            MPCSolver.trucks self !! j = Some truck ->
            imap (fun other_truck_index truck =>
                    {| Truck.capacity := Truck.capacity truck;
                       Truck.position :=
                         mpc.if_else
                           (mpc.eq (Z.of_nat other_truck_index) truck_index)
                           destination (Truck.position truck);
                       Truck.destination := Truck.destination truck;
                       Truck.freighter_id := Truck.freighter_id truck;
                       Truck.dist_to_order := Truck.dist_to_order truck |})
              (MPCSolver.trucks self) !! j
            = Some (if decide (Z.of_nat j = truck_index)
                    then Truck.mk (Truck.capacity truck) destination
                           (Truck.destination truck) (Truck.freighter_id truck)
                           (Truck.dist_to_order truck)
                    else truck)).
  { intros j truck Hj. rewrite list_lookup_imap, Hj. simpl. f_equal.
    destruct (decide (Z.of_nat j = truck_index)) as [He | Hne].
    - by rewrite eq_true, if_else_1.
    - rewrite eq_false, if_else_0 by done. by destruct truck. }
  split; [exact Hlook|].
  intros Hnone.
  match goal with
  | |- MPCSolver.set_trucks self ?moved = self =>
      assert (Hsame : moved = MPCSolver.trucks self)
  end.
  { apply list_eq. intros j.
    destruct (MPCSolver.trucks self !! j) as [truck|] eqn:Hj.
    - rewrite (Hlook j truck Hj). rewrite decide_False; [done|].
      intros <-. unfold lookup_index in Hnone.
      destruct (Z.leb_spec 0 (Z.of_nat j)); [|lia].
      rewrite Nat2Z.id in Hnone. congruence.
    - by rewrite list_lookup_imap, Hj. }
  rewrite Hsame. apply set_trucks_same.
Qed.

(** ** The distance of a truck to a node *)

Lemma in_prod_comm (x y : list Z) : mpc.in_prod x y = mpc.in_prod y x.
Proof.
  revert y. induction x as [|a x IH]; intros [|b y]; try reflexivity.
  rewrite !in_prod_cons, IH. lia.
Qed.

Lemma lookup_index_fmap {A B : Type} (f : A -> B) (l : list A) (index : Z) :
  lookup_index (f <$> l) index = f <$> lookup_index l index.
Proof.
  unfold lookup_index. destruct (0 <=? index); [|done].
  by rewrite list_lookup_fmap.
Qed.

Lemma lookup_index_elem_of {A : Type} (l : list A) (index : Z) (x : A) :
  lookup_index l index = Some x -> x ∈ l.
Proof.
  unfold lookup_index. destruct (0 <=? index); [|done].
  apply list_elem_of_lookup_2.
Qed.

(** The double matrix product is a lookup in the route matrix. *)
Lemma distance_is_route_cost (m : Map.t) (source target : Z) :
  well_formed_map m ->
  mpc.in_prod (compute_indicator_vector (Map.num_positions m) source)
    (mpc.matrix_vector_prod (Map.route_matrix m)
       (compute_indicator_vector (Map.num_positions m) target))
  = route_cost m source target.
Proof.
  intros [Hrows Hcols]. unfold mpc.matrix_vector_prod, route_cost.
  rewrite <- Hrows at 1.
  rewrite <- (length_fmap
                (fun row =>
                   mpc.in_prod row
                     (compute_indicator_vector (Map.num_positions m) target))
                (Map.route_matrix m)) at 1.
  rewrite in_prod_indicator_vector, lookup_index_fmap.
  destruct (lookup_index (Map.route_matrix m) source) as [row|] eqn:Hrow;
    [|done].
  simpl. rewrite in_prod_comm.
  assert (Hlen : length row = Map.num_positions m).
  { apply lookup_index_elem_of in Hrow. rewrite Forall_forall in Hcols.
    apply Hcols. by apply list_elem_of_In. }
  rewrite <- Hlen. apply in_prod_indicator_vector.
Qed.

(** X6. On a well-formed map and with the indicator vector of a node,
    [_find_distances_to_order] sets the scratch distance of every truck to
    the cost of the route from its position to the node, read in the route
    matrix (0 when the position or the node is not on the map), and changes
    nothing else. *)
Theorem find_distances_to_order_spec self (node : Z) :
  well_formed_map (MPCSolver.map self) ->
  MPCSolver._find_distances_to_order self
    (compute_indicator_vector (Map.num_positions (MPCSolver.map self)) node)
  = MPCSolver.set_trucks self
      ((fun truck =>
          Truck.mk (Truck.capacity truck) (Truck.position truck)
            (Truck.destination truck) (Truck.freighter_id truck)
            (Some (route_cost (MPCSolver.map self) (Truck.position truck) node)))
         <$> MPCSolver.trucks self).
Proof.
  intros Hmap. unfold MPCSolver._find_distances_to_order. f_equal.
  apply list_fmap_ext. intros _ truck _.
  unfold MPCSolver._find_truck_dist_to_order.
  by rewrite distance_is_route_cost.
Qed.

Lemma find_distances_to_order_spec_witness :
  well_formed_map (MPCSolver.map stalled_solver)
  /\ MPCSolver.trucks
       (MPCSolver._find_distances_to_order stalled_solver
          (compute_indicator_vector 2 0))
     = [Truck.mk 10 1 100 7 (Some 3)].
Proof.
  assert (H : well_formed_map (MPCSolver.map stalled_solver))
    by (split; [reflexivity | repeat constructor]).
  split; [exact H|].
  exact (f_equal MPCSolver.trucks (find_distances_to_order_spec stalled_solver 0 H)).
Defined.

(** ** The first unprocessed origin *)

Lemma first_unprocessed_origin_default (orders : list Order.t) :
  Forall (fun order => is_bit (Order.processed order)) orders ->
  mpc.in_prod (Order.origin <$> orders)
    (first_non_zero_from 0 ((fun order => 1 - Order.processed order) <$> orders))
  = default 0 (Order.origin <$> first_unprocessed orders).
Proof.
  intros Hbits.
  destruct (first_unprocessed orders) as [order|] eqn:Hfind.
  - by apply first_unprocessed_origin_eq.
  - simpl. unfold first_unprocessed in Hfind.
    induction Hbits as [|o l Ho Hl IH]; csimpl; [done|].
    simpl in Hfind. rewrite in_prod_cons.
    destruct Ho as [Ho | Ho]; rewrite Ho in *; simpl in Hfind; [done|].
    replace (real_or 0 (1 - 1)) with 0 by reflexivity.
    rewrite IH by done. lia.
Qed.

(** X7. [_locate_first_unprocessed_origin] raises when there is no order.
    Otherwise, the [processed] flags being bits, it returns the origin of the
    first order whose flag is 0, with the indicator vector of that origin
    over the positions of the map; when every order is processed the origin
    it returns is 0. *)
Theorem locate_first_unprocessed_origin_spec self :
  Forall (fun order => is_bit (Order.processed order)) (MPCSolver.orders self) ->
  MPCSolver._locate_first_unprocessed_origin self
  = match MPCSolver.orders self with
    | [] => None
    | _ =>
        let origin :=
          default 0 (Order.origin <$> first_unprocessed (MPCSolver.orders self)) in
        Some (origin,
              compute_indicator_vector
                (Map.num_positions (MPCSolver.map self)) origin)
    end.
Proof.
  intros Hbits. unfold MPCSolver._locate_first_unprocessed_origin.
  destruct (MPCSolver.orders self) as [|o os] eqn:E; [done|].
  rewrite <- E in *. rewrite find_first_non_zero_eq.
  - simpl. by rewrite first_unprocessed_origin_default.
  - rewrite E. discriminate.
Qed.

Lemma locate_first_unprocessed_origin_spec_witness :
  Forall (fun order => is_bit (Order.processed order))
    (MPCSolver.orders stalled_solver)
  /\ MPCSolver._locate_first_unprocessed_origin stalled_solver
     = Some (0, [1; 0]).
Proof.
  assert (H : Forall (fun order => is_bit (Order.processed order))
                (MPCSolver.orders stalled_solver))
    by (repeat constructor).
  split; [exact H|].
  exact (locate_first_unprocessed_origin_spec stalled_solver H).
Defined.

(** ** When an order is packed *)

Lemma fill_truck_with_order_decide self truck order :
  is_bit (Order.processed order) ->
  MPCSolver._fill_truck_with_order self truck order
  = if decide (Truck.position truck = Order.origin order
               /\ (Truck.destination truck = MPCSolver.dummy_node self
                   \/ Truck.destination truck = Order.destination order)
               /\ Order.volume order <= Truck.capacity truck
               /\ Order.processed order = 0)
    then (Truck.mk (Truck.capacity truck - Order.volume order)
            (Truck.position truck) (Order.destination order)
            (Truck.freighter_id truck) (Truck.dist_to_order truck),
          Order.mk (Order.origin order) (Order.destination order)
            (Order.volume order) 1 1 (Truck.freighter_id truck))
    else (truck, order).
Proof.
  intros Hp.
  assert (Hiff : MPCSolver.compatible self truck order = 1
                 <-> Truck.position truck = Order.origin order
                     /\ (Truck.destination truck = MPCSolver.dummy_node self
                         \/ Truck.destination truck = Order.destination order)
                     /\ Order.volume order <= Truck.capacity truck
                     /\ Order.processed order = 0).
  { unfold MPCSolver.compatible, mpc.eq, mpc.ge, real_or.
    destruct (Z.eqb_spec (Truck.position truck) (Order.origin order));
      destruct (Z.eqb_spec (Truck.destination truck) (MPCSolver.dummy_node self));
      destruct (Z.eqb_spec (Truck.destination truck) (Order.destination order));
      destruct (Z.leb_spec 0 (Truck.capacity truck - Order.volume order));
      destruct Hp as [Hp | Hp]; rewrite Hp; split; intros Hcond; try lia;
      try (destruct Hcond as (? & [? | ?] & ? & ?); lia);
      (split; [done|]; split; [auto|]; split; [lia | done]). }
  destruct (fill_truck_with_order_cases self truck order Hp)
    as [[Hc ->] | [Hc ->]].
  - rewrite decide_False; [done|]. rewrite <- Hiff. lia.
  - rewrite decide_True; [done|]. by apply Hiff.
Qed.

(** X8. On an order whose [processed] flag is a bit,
    [_fill_truck_with_order] packs the order exactly when the truck stands
    at its origin, is uncommitted or committed to its destination, has room
    for its volume, and the order is unprocessed: then the truck takes the
    destination and loses the volume, and the order is marked and takes the
    truck's freighter id. In every other case neither object changes. *)
Theorem fill_truck_with_order_spec self truck order :
  is_bit (Order.processed order) ->
  MPCSolver._fill_truck_with_order self truck order
  = if decide (Truck.position truck = Order.origin order
               /\ (Truck.destination truck = MPCSolver.dummy_node self
                   \/ Truck.destination truck = Order.destination order)
               /\ Order.volume order <= Truck.capacity truck
               /\ Order.processed order = 0)
    then (Truck.mk (Truck.capacity truck - Order.volume order)
            (Truck.position truck) (Order.destination order)
            (Truck.freighter_id truck) (Truck.dist_to_order truck),
          Order.mk (Order.origin order) (Order.destination order)
            (Order.volume order) 1 1 (Truck.freighter_id truck))
    else (truck, order).
Proof.
  revert self truck order.
  exact fill_truck_with_order_decide.
Qed.

Lemma fill_truck_with_order_spec_witness :
  is_bit (Order.processed (Order.mk 0 1 4 0 0 200))
  /\ MPCSolver._fill_truck_with_order scenario_solver
       (Truck.mk 10 0 100 7 None) (Order.mk 0 1 4 0 0 200)
     = (Truck.mk 6 0 1 7 None, Order.mk 0 1 4 1 1 7).
Proof.
  assert (H : is_bit (Order.processed (Order.mk 0 1 4 0 0 200))) by (by left).
  split; [exact H|].
  exact (fill_truck_with_order_spec scenario_solver
           (Truck.mk 10 0 100 7 None) (Order.mk 0 1 4 0 0 200) H).
Defined.

(** X9. [_fill_truck_with_order] is idempotent: called again on the truck
    and the order it has just updated, it changes neither. *)
Theorem fill_truck_with_order_idempotent self truck order :
  is_bit (Order.processed order) ->
  let result := MPCSolver._fill_truck_with_order self truck order in
  MPCSolver._fill_truck_with_order self result.1 result.2 = result.
Proof.
  intros Hp. cbn zeta.
  destruct (fill_truck_with_order_cases self truck order Hp)
    as [[Hc Heq] | [Hc Heq]]; rewrite Heq; cbn [fst snd]; [done|].
  rewrite fill_truck_with_order_decide by (by right).
  rewrite decide_False; [done|]. simpl. lia.
Qed.

Lemma fill_truck_with_order_idempotent_witness :
  is_bit (Order.processed (Order.mk 0 1 4 0 0 200))
  /\ MPCSolver._fill_truck_with_order scenario_solver
       (Truck.mk 6 0 1 7 None) (Order.mk 0 1 4 1 1 7)
     = (Truck.mk 6 0 1 7 None, Order.mk 0 1 4 1 1 7).
Proof.
  assert (H : is_bit (Order.processed (Order.mk 0 1 4 0 0 200))) by (by left).
  split; [exact H|].
  exact (fill_truck_with_order_idempotent scenario_solver
           (Truck.mk 10 0 100 7 None) (Order.mk 0 1 4 0 0 200) H).
Defined.

(** ** A round of filling *)

Section FillRound.

Variable self : MPCSolver.t.

(** The inner loop leaves the position, the freighter id and the scratch
    distance of its truck alone, and the number of orders. *)
Lemma fill_truck_with_orders_frame truck orders :
  let result := MPCSolver.fill_truck_with_orders self truck orders in
  Truck.position result.1 = Truck.position truck
  /\ Truck.freighter_id result.1 = Truck.freighter_id truck
  /\ Truck.dist_to_order result.1 = Truck.dist_to_order truck
  /\ length result.2 = length orders.
Proof.
  revert truck. induction orders as [|order orders IH]; intros truck; [done|].
  rewrite fill_truck_with_orders_cons. cbn zeta. cbn [fst snd length].
  destruct (IH (MPCSolver._fill_truck_with_order self truck order).1)
    as (H1 & H2 & H3 & H4).
  rewrite H1, H2, H3, H4. done.
Qed.

(** What the inner loop of a truck does to the orders. *)
Lemma fill_truck_with_orders_packs truck orders :
  Forall (fun order => is_bit (Order.processed order)) orders ->
  Forall2 (kept_or_packed [truck]) orders
    (MPCSolver.fill_truck_with_orders self truck orders).2.
Proof.
  intros Hbits. revert truck.
  induction Hbits as [|order orders Hp _ IH]; intros truck; [constructor|].
  rewrite fill_truck_with_orders_cons. cbn zeta. cbn [fst snd].
  assert (Hrest : forall truck',
            Truck.position truck' = Truck.position truck ->
            Truck.freighter_id truck' = Truck.freighter_id truck ->
            Forall2 (kept_or_packed [truck]) orders
              (MPCSolver.fill_truck_with_orders self truck' orders).2).
  { intros truck' Hpos Hid. eapply Forall2_impl; [|apply (IH truck')].
    intros o o' [-> | (Hz & t & Ht & Ho & ->)]; [by left|].
    right. split; [done|]. exists truck.
    split; [by apply list_elem_of_singleton|].
    apply list_elem_of_singleton in Ht as ->. rewrite <- Hpos, <- Hid. done. }
  rewrite fill_truck_with_order_decide by done.
  destruct (decide _) as [(Hpos & _ & _ & Hz) | _]; cbn [fst snd];
    constructor; try (by apply Hrest).
  - right. split; [done|]. exists truck.
    split; [by apply list_elem_of_singleton|]. done.
  - by left.
Qed.

Lemma kept_or_packed_bits trucks orders orders' :
  Forall (fun order => is_bit (Order.processed order)) orders ->
  Forall2 (kept_or_packed trucks) orders orders' ->
  Forall (fun order => is_bit (Order.processed order)) orders'.
Proof.
  intros Hbits H. induction H as [|o o' l l' Ho _ IH]; [constructor|].
  inversion_clear Hbits. constructor; [|by apply IH].
  destruct Ho as [-> | (_ & t & _ & _ & ->)]; [done | by right].
Qed.

(** The outer loop: every truck ends reset, with its freighter id; every
    order is kept or packed by a truck of the fleet. *)
Lemma fill_each_truck_packs trucks orders :
  Forall (fun order => is_bit (Order.processed order)) orders ->
  let result := MPCSolver.fill_each_truck self trucks orders in
  Forall2 (kept_or_packed trucks) orders result.2
  /\ Forall2 (fun truck truck' =>
                Truck.freighter_id truck' = Truck.freighter_id truck
                /\ Truck.dist_to_order truck' = Truck.dist_to_order truck
                /\ Truck.capacity truck' = MPCSolver.truck_capacity self
                /\ Truck.destination truck' = MPCSolver.dummy_node self)
       trucks result.1.
Proof.
  revert orders. induction trucks as [|truck trucks IH]; intros orders Hbits.
  - split; [|constructor]. apply Forall_Forall2_diag.
    eapply Forall_impl; [|exact Hbits]. by left.
  - rewrite fill_each_truck_cons. cbn zeta. cbn [fst snd].
    pose proof (fill_truck_with_orders_packs truck orders Hbits) as Hpack.
    destruct (fill_truck_with_orders_frame truck orders) as (_ & Hid & Hd & _).
    destruct (IH _ (kept_or_packed_bits _ _ _ Hbits Hpack)) as [IH1 IH2].
    split; [|constructor; [by repeat split | done]].
    clear IH2 Hid Hd IH Hbits.
    revert Hpack IH1.
    generalize (MPCSolver.fill_truck_with_orders self truck orders).2.
    generalize (MPCSolver.fill_each_truck self trucks).
    intros rest mid Hpack. revert Hpack.
    generalize (rest mid).2. clear rest.
    intros final Hpack. revert final.
    induction Hpack as [|o o1 l l1 Ho _ IHl]; intros final Hfinal;
      inversion Hfinal as [|? o2 ? l2 Ho2 Hl2]; subst; [constructor|].
    constructor; [|by apply IHl].
    destruct Ho as [-> | (Hz & t & Ht & Hpos & ->)].
    + destruct Ho2 as [-> | (Hz & t & Ht & Hpos & ->)]; [by left|].
      right. split; [done|]. exists t. split; [by apply list_elem_of_further|].
      done.
    + destruct Ho2 as [-> | (Hz' & _)]; [|discriminate Hz'].
      right. split; [done|]. exists t. split; [|done].
      apply list_elem_of_singleton in Ht as ->. apply list_elem_of_here.
Qed.

End FillRound.

Lemma fill_trucks_trucks_reset self :
  Forall2 (fun truck truck' =>
             Truck.freighter_id truck' = Truck.freighter_id truck
             /\ Truck.capacity truck' = MPCSolver.truck_capacity self
             /\ Truck.destination truck' = MPCSolver.dummy_node self)
    (MPCSolver.trucks self) (MPCSolver.trucks (MPCSolver._fill_trucks self)).
Proof.
  unfold MPCSolver._fill_trucks.
  assert (H : forall trucks orders,
            Forall2 (fun truck truck' =>
                       Truck.freighter_id truck' = Truck.freighter_id truck
                       /\ Truck.capacity truck' = MPCSolver.truck_capacity self
                       /\ Truck.destination truck' = MPCSolver.dummy_node self)
              trucks (MPCSolver.fill_each_truck self trucks orders).1).
  { induction trucks as [|truck trucks IH]; intros orders; [constructor|].
    rewrite fill_each_truck_cons. cbn zeta. cbn [fst snd].
    destruct (fill_truck_with_orders_frame self truck orders) as (_ & Hid & _).
    constructor; [by repeat split | apply IH]. }
  specialize (H (MPCSolver.trucks self) (MPCSolver.orders self)).
  by destruct (MPCSolver.fill_each_truck self (MPCSolver.trucks self)
                 (MPCSolver.orders self)).
Qed.

(** X10. [_fill_trucks] keeps the number of trucks and the freighter id of
    each; it leaves every truck with the configured capacity and the dummy
    destination. *)
Theorem fill_trucks_resets_trucks self :
  Forall2 (fun truck truck' =>
             Truck.freighter_id truck' = Truck.freighter_id truck
             /\ Truck.capacity truck' = MPCSolver.truck_capacity self
             /\ Truck.destination truck' = MPCSolver.dummy_node self)
    (MPCSolver.trucks self) (MPCSolver.trucks (MPCSolver._fill_trucks self)).
Proof.
  revert self.
  exact fill_trucks_trucks_reset.
Qed.

Lemma fill_trucks_kept_or_packed self :
  Forall (fun order => is_bit (Order.processed order)) (MPCSolver.orders self) ->
  Forall2 (kept_or_packed (MPCSolver.trucks self))
    (MPCSolver.orders self) (MPCSolver.orders (MPCSolver._fill_trucks self)).
Proof.
  intros Hbits. unfold MPCSolver._fill_trucks.
  destruct (fill_each_truck_packs self (MPCSolver.trucks self) _ Hbits)
    as [H _].
  by destruct (MPCSolver.fill_each_truck self (MPCSolver.trucks self)
                 (MPCSolver.orders self)).
Qed.

(** X11. Through [_fill_trucks], with [processed] flags that are bits, each
    order is left exactly as it was or, being unprocessed, is packed by a
    truck of the fleet that stood at its origin: it keeps origin,
    destination and volume, both its flags become 1 and it takes the
    freighter id of that truck. A processed order is never touched. *)
Theorem fill_trucks_keeps_or_packs self :
  Forall (fun order => is_bit (Order.processed order)) (MPCSolver.orders self) ->
  Forall2 (kept_or_packed (MPCSolver.trucks self))
    (MPCSolver.orders self) (MPCSolver.orders (MPCSolver._fill_trucks self)).
Proof.
  revert self.
  exact fill_trucks_kept_or_packed.
Qed.

Lemma fill_trucks_keeps_or_packs_witness :
  Forall (fun order => is_bit (Order.processed order))
    (MPCSolver.orders scenario_solver)
  /\ Forall2 (kept_or_packed (MPCSolver.trucks scenario_solver))
       (MPCSolver.orders scenario_solver)
       (MPCSolver.orders (MPCSolver._fill_trucks scenario_solver)).
Proof.
  assert (H : Forall (fun order => is_bit (Order.processed order))
                (MPCSolver.orders scenario_solver))
    by (repeat constructor).
  split; [exact H|].
  exact (fill_trucks_keeps_or_packs scenario_solver H).
Defined.

(** ** What the round loop keeps *)

Lemma create_empty_truck_drive_config self self' :
  MPCSolver._create_empty_truck_drive self = Some self' ->
  MPCSolver.dummy_node self' = MPCSolver.dummy_node self
  /\ MPCSolver.dummy_freighter_id self' = MPCSolver.dummy_freighter_id self
  /\ MPCSolver.map self' = MPCSolver.map self
  /\ MPCSolver.truck_capacity self' = MPCSolver.truck_capacity self.
Proof.
  unfold MPCSolver._create_empty_truck_drive.
  destruct (MPCSolver._locate_first_unprocessed_origin self) as [[o v]|];
    [|discriminate].
  cbn [mbind option_bind].
  destruct (mapM _ _) as [dists|]; [|discriminate]. cbn [mbind option_bind].
  destruct (mpc.argmin dists) as [closest|]; [|discriminate].
  cbn [mbind option_bind]. by intros [= <-].
Qed.

Lemma reset_order_same order :
  Order.process_this_round order = 0 -> MPCSolver.reset_order order = order.
Proof. destruct order. simpl. by intros ->. Qed.

Lemma sum_nonneg (l : list Z) : Forall is_bit l -> 0 <= foldr Z.add 0 l.
Proof. induction 1 as [|x l [-> | ->] _ IH]; simpl; lia. Qed.

Lemma Forall2_right {A B : Type} (R : A -> B -> Prop) (Q : B -> Prop)
    (l : list A) (k : list B) :
  Forall2 R l k -> (forall x y, R x y -> Q y) -> Forall Q k.
Proof. induction 1; intros HQ; constructor; eauto. Qed.

Lemma Forall2_lookups {A B : Type} (R : A -> B -> Prop) (l : list A) (k : list B) :
  length k = length l ->
  (forall (j : nat) y, k !! j = Some y -> exists x, l !! j = Some x /\ R x y) ->
  Forall2 R l k.
Proof.
  intros Hlen H. apply Forall2_same_length_lookup. split; [done|].
  intros j x y Hx Hy. destruct (H j y Hy) as (x' & Hx' & HR). congruence.
Qed.

(** One round from a state that satisfies [solver_ok], with a fleet that is
    not empty and an order still to process. *)
Lemma round_keeps_solver_ok problem dfi dn tc self :
  solver_ok problem dfi dn tc self ->
  MPCSolver.trucks self <> [] ->
  MPCSolver.num_processed_orders self
    < Z.of_nat (length (MPCSolver.orders self)) ->
  exists self' n,
    MPCSolver.round self = Some (self', mkOutput NumAddedOrders n AllParties)
    /\ n = MPCSolver.num_added_orders (MPCSolver._fill_trucks self)
    /\ solver_ok problem dfi dn tc self'
    /\ MPCSolver.trucks self' <> []
    /\ trucks_ready self'
    /\ 0 <= n
    /\ MPCSolver.num_processed_orders self'
       = MPCSolver.num_processed_orders self + n
    /\ (n <> 0 ->
        MPCSolver.empty_drives self' = MPCSolver.empty_drives self)
    /\ (n = 0 ->
        MPCSolver.orders self' = MPCSolver.orders self
        /\ length (MPCSolver.empty_drives self')
           = S (length (MPCSolver.empty_drives self))
        /\ exists order (k : nat) truck,
             first_unprocessed (MPCSolver.orders self) = Some order
             /\ MPCSolver.trucks self' !! k = Some truck
             /\ Truck.position truck = Order.origin order).
Proof.
  intros (Hbetween & Htc & Hdn & Hdfi & Hmap & Hfleet & Horders) Hne Hlt.
  destruct (round_spec self Hbetween Hne Hlt)
    as (self' & Hround & Hbetween' & Hlen & Hreset & Hprogress & Hstall).
  set (filled := MPCSolver._fill_trucks self) in *.
  set (n := MPCSolver.num_added_orders filled) in *.
  exists self', n. split; [done|]. split; [done|].
  destruct Hbetween as (Hok & Hzero & Hnum).
  assert (Hbits : Forall (fun order => is_bit (Order.processed order))
                    (MPCSolver.orders self))
    by (eapply Forall_impl; [|exact Hok]; by intros o [Hp _]).
  pose proof (fill_trucks_kept_or_packed self Hbits) as Hpack.
  pose proof (fill_trucks_trucks_reset self) as Hres.
  destruct (fill_trucks_spec self Hok) as (Hok' & Hev & _ & _).
  destruct (fill_trucks_config self) as (Ftc & Fdn & Fdfi & Fmap & Fdr & Fnum).
  fold filled in Hpack, Hres, Hok', Hev, Ftc, Fdn, Fdfi, Fmap, Fdr, Fnum.
  assert (Hn0 : 0 <= n).
  { apply sum_nonneg, Forall_fmap. eapply Forall_impl; [|exact Hok'].
    by intros o (_ & Hr & _). }
  (* the state the round ends in *)
  unfold MPCSolver.round in Hround. fold filled in Hround.
  change (MPCSolver.num_added_orders filled) with n in Hround.
  assert (Hend : exists moved,
             (if n =? 0 then MPCSolver._create_empty_truck_drive filled
              else Some filled) = Some moved
             /\ self' = MPCSolver.set_num_processed_orders
                          (MPCSolver.set_orders moved
                             (MPCSolver.reset_order <$> MPCSolver.orders moved))
                          (MPCSolver.num_processed_orders moved + n)).
  { destruct (if n =? 0 then _ else _) as [moved|]; [|discriminate Hround].
    exists moved. split; [done|]. cbn [mbind option_bind] in Hround.
    by injection Hround as <-. }
  destruct Hend as (moved & Hmoved & Hself').
  assert (Hfacts :
            MPCSolver.orders moved = MPCSolver.orders filled
            /\ MPCSolver.num_processed_orders moved
               = MPCSolver.num_processed_orders filled
            /\ MPCSolver.truck_capacity moved = MPCSolver.truck_capacity filled
            /\ MPCSolver.dummy_node moved = MPCSolver.dummy_node filled
            /\ MPCSolver.dummy_freighter_id moved
               = MPCSolver.dummy_freighter_id filled
            /\ MPCSolver.map moved = MPCSolver.map filled
            /\ Forall2 (fun truck truck' =>
                          Truck.freighter_id truck' = Truck.freighter_id truck
                          /\ Truck.capacity truck' = Truck.capacity truck
                          /\ Truck.destination truck' = Truck.destination truck)
                 (MPCSolver.trucks filled) (MPCSolver.trucks moved)).
  { destruct (Z.eqb_spec n 0) as [Hn | Hn].
    - assert (Hbits' : Forall (fun order => is_bit (Order.processed order))
                         (MPCSolver.orders filled))
        by (eapply Forall_impl; [|exact Hok']; by intros o [Hp _]).
      destruct (Hstall Hn) as (order & _ & _ & Hfind & _).
      destruct (create_empty_truck_drive_spec filled order Hbits' Hfind)
        as (moved' & k & closest & Hrun & Ho & Hp & Hc & Hl & _ & _ & Ht).
      { apply Forall2_length in Hres. intros E. rewrite E in Hres.
        destruct (MPCSolver.trucks self); done. }
      rewrite Hrun in Hmoved. injection Hmoved as ->.
      destruct (create_empty_truck_drive_config _ _ Hrun) as (C1 & C2 & C3 & _).
      repeat (split; [done|]).
      apply Forall2_lookups; [done|].
      intros j truck' Hj. destruct (Ht j truck' Hj) as (t & H1 & _ & H2 & H3 & H4).
      by exists t.
    - injection Hmoved as <-. repeat (split; [done|]).
      apply Forall_Forall2_diag, Forall_true. by intros t. }
  destruct Hfacts as (Mo & Mnum & Mtc & Mdn & Mdfi & Mmap & Mtrucks).
  assert (Htrucks : Forall2 (fun truck truck' =>
                               Truck.freighter_id truck' = Truck.freighter_id truck
                               /\ Truck.capacity truck' = tc
                               /\ Truck.destination truck' = dn)
                      (MPCSolver.trucks self) (MPCSolver.trucks self')).
  { rewrite Hself'. cbn [MPCSolver.trucks MPCSolver.set_num_processed_orders
      MPCSolver.set_orders].
    eapply Forall2_trans; [|exact Hres|exact Mtrucks].
    simpl. intros x y z (H1 & H2 & H3) (H4 & H5 & H6).
    repeat split; congruence. }
  split.
  { (* solver_ok *)
    split; [done|].
    rewrite Hself'. cbn [MPCSolver.truck_capacity MPCSolver.dummy_node
      MPCSolver.dummy_freighter_id MPCSolver.map
      MPCSolver.set_num_processed_orders MPCSolver.set_orders].
    split; [congruence|]. split; [congruence|]. split; [congruence|].
    split; [congruence|]. split.
    - rewrite <- Hfleet. unfold fleet_freighters. symmetry.
      rewrite <- Hself'. clear -Htrucks.
      induction Htrucks as [|t t' l l' (H & _) _ IH]; csimpl; [done|].
      by rewrite H, IH.
    - rewrite <- Hself', Hreset.
      apply Forall2_fmap_r.
      eapply Forall2_trans; [|exact Horders|exact Hpack].
      simpl. intros o0 o o' (H1 & H2 & H3 & Ha) Hk.
      unfold compose, assignment_ok.
      destruct Hk as [-> | (Hz & t & Ht & _ & ->)]; simpl.
      + repeat (split; [done|]).
        destruct Ha as [[Hp Hf] | [Hp Hf]]; [left | right]; by split.
      + repeat (split; [done|]). right. split; [done|].
        rewrite <- Hfleet. unfold fleet_freighters.
        by apply (list_elem_of_fmap_2 Truck.freighter_id). }
  split.
  { intros E. rewrite E in Htrucks. apply Forall2_length in Htrucks.
    destruct (MPCSolver.trucks self); done. }
  split.
  { unfold trucks_ready.
    assert (Hcfg : MPCSolver.truck_capacity self' = tc
                   /\ MPCSolver.dummy_node self' = dn).
    { rewrite Hself'. simpl. split; congruence. }
    destruct Hcfg as [-> ->].
    eapply Forall2_right; [exact Htrucks|]. simpl.
    intros t t' (_ & H1 & H2). done. }
  split; [done|].
  split; [rewrite Hself'; simpl; lia|].
  split; [intros Hn; by destruct (Hprogress Hn)|].
  intros Hn.
  assert (Hsame : MPCSolver.orders filled = MPCSolver.orders self).
  { pose proof Hn as Hz. unfold n, MPCSolver.num_added_orders in Hz.
    apply sum_bits_zero in Hz.
    - clear -Hpack Hz. apply Forall_fmap in Hz.
      induction Hpack as [|o o' l l' Ho _ IH]; [done|].
      inversion_clear Hz as [|? ? Hz1 Hz2]. rewrite IH by done. f_equal.
      destruct Ho as [-> | (_ & t & _ & _ & ->)]; [done|]. discriminate Hz1.
    - apply Forall_fmap. eapply Forall_impl; [|exact Hok'].
      by intros o (_ & Hr & _). }
  destruct (Hstall Hn) as (order & k & closest & Hfind & Hk & Hd & Ht).
  split.
  { rewrite Hreset, Hsame. clear -Hzero.
    induction Hzero as [|o l Ho _ IH]; csimpl; [done|].
    by rewrite IH, reset_order_same. }
  split; [by rewrite Hd, length_app, Nat.add_1_r|].
  assert (Hk' : (k < length (MPCSolver.trucks self'))%nat).
  { apply Forall2_length in Htrucks, Hres. rewrite <- Htrucks, Hres.
    by eapply lookup_lt_Some. }
  destruct (lookup_lt_is_Some_2 _ _ Hk') as [truck Htruck].
  exists order, k, truck. split; [by rewrite <- Hsame|]. split; [done|].
  destruct (Ht k truck Htruck) as (t & _ & Hpos).
  by rewrite decide_True in Hpos.
Qed.

Lemma init_solver_ok problem dfi dn tc start :
  MPCSolver.__init__ (prepare_mpc_data problem dfi dn) dfi dn tc = Some start ->
  solver_ok problem dfi dn tc start
  /\ MPCSolver.empty_drives start = []
  /\ MPCSolver.num_processed_orders start = 0
  /\ length (MPCSolver.trucks start) = length (Problem.trucks problem).
Proof.
  intros Hinit. pose proof (init_between_rounds _ _ _ _ _ Hinit) as Hb.
  unfold MPCSolver.__init__ in Hinit.
  destruct (Problem.orders (prepare_mpc_data problem dfi dn)) eqn:E; [done|].
  injection Hinit as <-. rewrite <- E in *. clear E.
  split; [|split; [done|split; [done|simpl; by rewrite length_fmap]]].
  split; [done|]. simpl. repeat (split; [done|]). split.
  - unfold fleet_freighters. rewrite <- list_fmap_compose.
    by apply list_fmap_ext.
  - apply Forall2_fmap_r, Forall_Forall2_diag, Forall_true.
    intros order. unfold compose, assignment_ok. simpl.
    repeat (split; [done|]). by left.
Qed.

(** Every state of the round loop satisfies [solver_ok]. *)
Lemma reachable_solver_ok problem dfi dn tc start self :
  MPCSolver.__init__ (prepare_mpc_data problem dfi dn) dfi dn tc = Some start ->
  Problem.trucks problem <> [] ->
  reachable start self ->
  solver_ok problem dfi dn tc self /\ MPCSolver.trucks self <> [].
Proof.
  intros Hinit Hne Hreach.
  induction Hreach as [|self self' out _ [IH1 IH2] Hlt Hround].
  - destruct (init_solver_ok _ _ _ _ _ Hinit) as (Hok & _ & _ & Hlen).
    split; [done|]. intros E. rewrite E in Hlen.
    destruct (Problem.trucks problem); done.
  - destruct (round_keeps_solver_ok _ _ _ _ _ IH1 IH2 Hlt)
      as (self'' & n & Hr & _ & Hok & Hfleet & _).
    rewrite Hround in Hr. by injection Hr as <- _.
Qed.

Lemma all_processed (l : list Order.t) :
  Forall (fun order => is_bit (Order.processed order)) l ->
  Z.of_nat (length l) <= foldr Z.add 0 (Order.processed <$> l) ->
  Forall (fun order => Order.processed order = 1) l.
Proof.
  induction 1 as [|o l Ho Hl IH]; csimpl; intros Hsum; [done|].
  assert (Hle : foldr Z.add 0 (Order.processed <$> l) <= Z.of_nat (length l)).
  { clear -Hl. induction Hl as [|o l [Ho | Ho] _ IH]; csimpl; lia. }
  destruct Ho as [Ho | Ho]; rewrite Ho in *; [lia|].
  constructor; [done|]. apply IH. lia.
Qed.

Lemma revealed_counts_app (l k : list Output) :
  revealed_counts (l ++ k) = revealed_counts l ++ revealed_counts k.
Proof. apply omap_app. Qed.

(** The final reveal holds no count. *)
Lemma revealed_counts_final (orders : list Order.t) (drives : list EmptyDrive.t) :
  revealed_counts
    (concat (imap MPCSolver.reveal_order orders)
     ++ concat (imap MPCSolver.reveal_empty_drive drives))
  = [].
Proof.
  assert (Hnone : forall l,
            Forall (fun out => what out <> NumAddedOrders) l ->
            revealed_counts l = []).
  { induction 1 as [|out l Ho _ IH]; [done|]. unfold revealed_counts in *.
    cbn [omap list_omap]. rewrite IH. by destruct (what out). }
  apply Hnone, Forall_app. split; apply Forall_concat, Forall_lookup_2;
    intros i outs Hi; rewrite list_lookup_imap in Hi;
    [destruct (orders !! i) | destruct (drives !! i)]; simplify_eq/=;
    repeat constructor; done.
Qed.

(** The run of the loop from a state that satisfies [solver_ok]. *)
Lemma rounds_returned problem dfi dn tc (fuel : nat) self final outs :
  solver_ok problem dfi dn tc self ->
  MPCSolver.trucks self <> [] ->
  MPCSolver.rounds fuel self = Returned (final, outs) ->
  solver_ok problem dfi dn tc final
  /\ Z.of_nat (length (MPCSolver.orders final))
     <= MPCSolver.num_processed_orders final
  /\ revealed_counts outs = value <$> outs
  /\ Forall (fun n => 0 <= n) (revealed_counts outs)
  /\ MPCSolver.num_processed_orders final
     = MPCSolver.num_processed_orders self
       + foldr Z.add 0 (revealed_counts outs)
  /\ length (MPCSolver.empty_drives final)
     = (length (MPCSolver.empty_drives self)
        + length (filter (fun n : Z => n = 0%Z) (revealed_counts outs)))%nat.
Proof.
  revert self outs. induction fuel as [|fuel IH]; intros self outs Hok Hne;
    cbn [MPCSolver.rounds];
    destruct (Z.ltb_spec (MPCSolver.num_processed_orders self)
                (Z.of_nat (length (MPCSolver.orders self)))) as [Hlt | Hge];
    try discriminate;
    try (intros [= <- <-]; split; [done|]; split; [lia|]; simpl;
         split; [done|]; split; [constructor|]; split; lia).
  destruct (round_keeps_solver_ok _ _ _ _ _ Hok Hne Hlt)
    as (self' & n & Hround & _ & Hok' & Hne' & _ & Hn & Hnum & Hprog & Hstall).
  rewrite Hround.
  destruct (MPCSolver.rounds fuel self') as [[final' outs']| |] eqn:Hrest;
    try discriminate.
  intros [= <- <-].
  destruct (IH _ _ Hok' Hne' Hrest) as (I1 & I2 & I3 & I4 & I5 & I6).
  split; [done|]. split; [done|].
  unfold revealed_counts in *. cbn [omap list_omap what value fmap list_fmap].
  fold (omap (fun out => match what out with
                         | NumAddedOrders => Some (value out)
                         | _ => None
                         end) outs').
  rewrite I3 in *. simpl.
  split; [done|]. split; [by constructor|]. split; [lia|].
  rewrite filter_cons. destruct (decide (n = 0)) as [Hz | Hnz].
  - destruct (Hstall Hz) as (_ & Hd & _). simpl. lia.
  - rewrite <- (Hprog Hnz). lia.
Qed.

(** ** The result of [solve_problem] *)

(** X12. When [solve_problem] returns on an uploaded problem with a fleet
    that is not empty, the orders are those of the problem, with their
    origins, destinations and volumes, every one is processed, and every one
    carries the freighter id of a truck of the fleet. *)
Theorem solve_problem_assigns_every_order problem dfi dn tc start fuel final outs :
  MPCSolver.__init__ (prepare_mpc_data problem dfi dn) dfi dn tc = Some start ->
  Problem.trucks problem <> [] ->
  MPCSolver.solve_problem fuel start = Returned (final, outs) ->
  Forall2 (fun order order' =>
             Order.origin order' = Order.origin order
             /\ Order.destination order' = Order.destination order
             /\ Order.volume order' = Order.volume order
             /\ Order.processed order' = 1
             /\ Order.freighter_id order'
                ∈ fleet_freighters (Problem.trucks problem))
    (Problem.orders problem) (MPCSolver.orders final).
Proof.
  intros Hinit Hne Hsolve. unfold MPCSolver.solve_problem in Hsolve.
  destruct (MPCSolver.rounds fuel start) as [[final' outs']| |] eqn:Hrounds;
    try discriminate.
  injection Hsolve as <- _.
  destruct (reachable_solver_ok _ _ _ _ _ _ Hinit Hne (reachable_start start))
    as [Hok Hfleet].
  destruct (rounds_returned _ _ _ _ _ _ _ _ Hok Hfleet Hrounds)
    as ((Hbetween & _ & _ & _ & _ & _ & Horders) & Hdone & _).
  destruct Hbetween as (Hflags & _ & Hnum).
  assert (Hall : Forall (fun order => Order.processed order = 1)
                   (MPCSolver.orders final')).
  { apply all_processed; [|lia].
    eapply Forall_impl; [|exact Hflags]. by intros o [Hp _]. }
  clear -Horders Hall.
  induction Horders as [|o o' l l' (H1 & H2 & H3 & Ha) _ IH]; [constructor|].
  inversion_clear Hall as [|? ? Hp Hrest]. constructor; [|by apply IH].
  repeat (split; [done|]).
  destruct Ha as [[Hz _] | [_ Hf]]; [congruence | done].
Qed.

Lemma solve_problem_assigns_every_order_witness :
  MPCSolver.__init__ (prepare_mpc_data stalled_problem 200 100) 200 100 10
  = Some stalled_solver
  /\ Problem.trucks stalled_problem <> []
  /\ (exists final outs,
        MPCSolver.solve_problem 2 stalled_solver = Returned (final, outs)
        /\ Forall2 (fun order order' =>
                      Order.origin order' = Order.origin order
                      /\ Order.destination order' = Order.destination order
                      /\ Order.volume order' = Order.volume order
                      /\ Order.processed order' = 1
                      /\ Order.freighter_id order'
                         ∈ fleet_freighters (Problem.trucks stalled_problem))
             (Problem.orders stalled_problem) (MPCSolver.orders final)).
Proof.
  assert (H1 : MPCSolver.__init__ (prepare_mpc_data stalled_problem 200 100)
                 200 100 10 = Some stalled_solver) by reflexivity.
  assert (H2 : Problem.trucks stalled_problem <> []) by discriminate.
  split; [exact H1|]. split; [exact H2|].
  eexists _, _. split; [vm_compute; reflexivity|].
  eapply (solve_problem_assigns_every_order stalled_problem 200 100 10
            stalled_solver 2 _ _ H1 H2).
  vm_compute. reflexivity.
Defined.

(** X13. When [solve_problem] returns on an uploaded problem with a fleet
    that is not empty, the counts it has revealed round after round are
    non-negative and add up to the number of orders, and the list of empty
    drives has one entry for each count that is 0. *)
Theorem solve_problem_revealed_counts problem dfi dn tc start fuel final outs :
  MPCSolver.__init__ (prepare_mpc_data problem dfi dn) dfi dn tc = Some start ->
  Problem.trucks problem <> [] ->
  MPCSolver.solve_problem fuel start = Returned (final, outs) ->
  Forall (fun n => 0 <= n) (revealed_counts outs)
  /\ foldr Z.add 0 (revealed_counts outs)
     = Z.of_nat (length (Problem.orders problem))
  /\ length (MPCSolver.empty_drives final)
     = length (filter (fun n : Z => n = 0) (revealed_counts outs)).
Proof.
  intros Hinit Hne Hsolve. unfold MPCSolver.solve_problem in Hsolve.
  destruct (MPCSolver.rounds fuel start) as [[final' outs']| |] eqn:Hrounds;
    try discriminate.
  injection Hsolve as <- <-.
  rewrite revealed_counts_app, revealed_counts_final, app_nil_r.
  destruct (init_solver_ok _ _ _ _ _ Hinit) as (Hok & Hdrives & Hzero & Hlen).
  assert (Hfleet : MPCSolver.trucks start <> []).
  { intros E. rewrite E in Hlen. destruct (Problem.trucks problem); done. }
  destruct (rounds_returned _ _ _ _ _ _ _ _ Hok Hfleet Hrounds)
    as (Hok' & Hdone & _ & Hpos & Hsum & Hcount).
  split; [done|]. split; [|by rewrite Hcount, Hdrives].
  destruct Hok' as ((Hflags & _ & Hnum) & _ & _ & _ & _ & _ & Horders).
  apply Forall2_length in Horders. rewrite Horders.
  assert (Hle : foldr Z.add 0 (Order.processed <$> MPCSolver.orders final')
                <= Z.of_nat (length (MPCSolver.orders final'))).
  { clear -Hflags.
    induction Hflags as [|o l ([Ho | Ho] & _) _ IH]; csimpl; lia. }
  lia.
Qed.

Lemma solve_problem_revealed_counts_witness :
  MPCSolver.__init__ (prepare_mpc_data stalled_problem 200 100) 200 100 10
  = Some stalled_solver
  /\ Problem.trucks stalled_problem <> []
  /\ (exists final outs,
        MPCSolver.solve_problem 2 stalled_solver = Returned (final, outs)
        /\ foldr Z.add 0 (revealed_counts outs)
           = Z.of_nat (length (Problem.orders stalled_problem))).
Proof.
  assert (H1 : MPCSolver.__init__ (prepare_mpc_data stalled_problem 200 100)
                 200 100 10 = Some stalled_solver) by reflexivity.
  assert (H2 : Problem.trucks stalled_problem <> []) by discriminate.
  split; [exact H1|]. split; [exact H2|].
  destruct (MPCSolver.solve_problem 2 stalled_solver)
    as [[final outs]| |] eqn:Hrun; [|by vm_compute in Hrun..].
  exists final, outs. split; [reflexivity|].
  destruct (solve_problem_revealed_counts stalled_problem 200 100 10
              stalled_solver 2 final outs H1 H2 Hrun) as (_ & Hsum & _).
  exact Hsum.
Defined.

(** ** Progress after a repositioning *)

Lemma first_unprocessed_split (orders : list Order.t) (order : Order.t) :
  Forall (fun order => is_bit (Order.processed order)) orders ->
  first_unprocessed orders = Some order ->
  exists before after,
    orders = before ++ order :: after
    /\ Forall (fun order => Order.processed order = 1) before
    /\ Order.processed order = 0.
Proof.
  unfold first_unprocessed.
  induction 1 as [|o l Ho _ IH]; simpl; intros Hfind; [done|].
  destruct Ho as [Ho | Ho]; rewrite Ho in Hfind; simpl in Hfind.
  - injection Hfind as <-. by exists [], l.
  - destruct (IH Hfind) as (before & after & -> & Hb & Hz).
    exists (o :: before), after. split; [done|]. split; [by constructor | done].
Qed.

Section Progress.

Variable self : MPCSolver.t.

(** The inner loop passes over processed orders without any change. *)
Lemma fill_truck_with_orders_skip truck (before l : list Order.t) :
  Forall (fun order => Order.processed order = 1) before ->
  MPCSolver.fill_truck_with_orders self truck (before ++ l)
  = ((MPCSolver.fill_truck_with_orders self truck l).1,
     before ++ (MPCSolver.fill_truck_with_orders self truck l).2).
Proof.
  induction 1 as [|o before Ho _ IH]; [by destruct (MPCSolver.fill_truck_with_orders _ _ _)|].
  rewrite <- app_comm_cons, fill_truck_with_orders_cons. cbn zeta.
  rewrite fill_truck_with_order_decide by (by right).
  rewrite decide_False by lia. cbn [fst snd]. by rewrite IH.
Qed.

(** A processed order stays as it is through the outer loop. *)
Lemma fill_each_truck_keeps_processed trucks before order after :
  Forall (fun order => Order.processed order = 1) before ->
  Order.processed order = 1 ->
  exists after',
    (MPCSolver.fill_each_truck self trucks (before ++ order :: after)).2
    = before ++ order :: after'.
Proof.
  intros Hb Hp. revert after.
  induction trucks as [|truck trucks IH]; intros after; [by eexists|].
  rewrite fill_each_truck_cons. cbn zeta. cbn [fst snd].
  rewrite fill_truck_with_orders_skip by done. cbn [snd].
  rewrite fill_truck_with_orders_cons. cbn zeta. cbn [fst snd].
  rewrite fill_truck_with_order_decide by (by right).
  rewrite decide_False by lia. cbn [fst snd]. apply IH.
Qed.

(** When a truck of the fleet stands uncommitted at the origin of the first
    unprocessed order, with room for it, the outer loop processes that
    order. *)
Lemma fill_each_truck_progress trucks before order after :
  Forall (fun order => Order.processed order = 1) before ->
  Order.processed order = 0 ->
  (exists truck,
     truck ∈ trucks
     /\ Truck.position truck = Order.origin order
     /\ Truck.destination truck = MPCSolver.dummy_node self
     /\ Order.volume order <= Truck.capacity truck) ->
  exists order' after',
    (MPCSolver.fill_each_truck self trucks (before ++ order :: after)).2
    = before ++ order' :: after'
    /\ Order.process_this_round order' = 1.
Proof.
  intros Hb Hz. revert after.
  induction trucks as [|truck trucks IH]; intros after (chosen & Hin & Hc).
  { by apply elem_of_nil in Hin. }
  rewrite fill_each_truck_cons. cbn zeta. cbn [fst snd].
  rewrite fill_truck_with_orders_skip by done. cbn [snd].
  rewrite fill_truck_with_orders_cons. cbn zeta. cbn [fst snd].
  rewrite fill_truck_with_order_decide by (by left).
  destruct (decide _) as [Hyes | Hno]; cbn [fst snd].
  - match goal with
    | |- context [before ++ ?packed :: ?rest] =>
        destruct (fill_each_truck_keeps_processed trucks before packed rest
                    Hb eq_refl) as [after' ->]
    end.
    by eexists _, _.
  - apply IH. exists chosen. split; [|done].
    apply elem_of_cons in Hin as [-> | Hin]; [|done].
    destruct Hc as (H1 & H2 & H3). exfalso. apply Hno. auto.
Qed.

End Progress.

Lemma fill_trucks_progress self order truck (k : nat) :
  between_rounds self ->
  trucks_ready self ->
  first_unprocessed (MPCSolver.orders self) = Some order ->
  MPCSolver.trucks self !! k = Some truck ->
  Truck.position truck = Order.origin order ->
  Order.volume order <= MPCSolver.truck_capacity self ->
  1 <= MPCSolver.num_added_orders (MPCSolver._fill_trucks self).
Proof.
  intros (Hok & _ & _) Hready Hfind Hk Hpos Hvol.
  assert (Hbits : Forall (fun order => is_bit (Order.processed order))
                    (MPCSolver.orders self))
    by (eapply Forall_impl; [|exact Hok]; by intros o [Hp _]).
  destruct (first_unprocessed_split _ _ Hbits Hfind)
    as (before & after & Horders & Hb & Hz).
  destruct (fill_trucks_spec self Hok) as (Hok' & _).
  unfold MPCSolver.num_added_orders, MPCSolver._fill_trucks in *.
  destruct (fill_each_truck_progress self (MPCSolver.trucks self)
              before order after Hb Hz) as (order' & after' & Hres & Hr).
  { exists truck. split; [by eapply list_elem_of_lookup_2|]. split; [done|].
    unfold trucks_ready in Hready. rewrite Forall_forall in Hready.
    destruct (Hready truck) as [Hc Hd].
    { apply list_elem_of_In. by eapply list_elem_of_lookup_2. }
    split; [done | lia]. }
  rewrite <- Horders in Hres.
  destruct (MPCSolver.fill_each_truck self (MPCSolver.trucks self)
              (MPCSolver.orders self)) as [trucks' orders'].
  cbn [MPCSolver.orders MPCSolver.set_orders snd] in *. subst orders'.
  rewrite fmap_app, fmap_cons, Hr.
  apply Forall_app in Hok' as [H1 H2]. inversion_clear H2 as [|? ? _ H3].
  assert (Hsum : forall l, Forall order_ok l ->
                   0 <= foldr Z.add 0 (Order.process_this_round <$> l)).
  { intros l Hl. apply sum_nonneg, Forall_fmap.
    eapply Forall_impl; [|exact Hl]. by intros o (_ & Ho & _). }
  pose proof (Hsum _ H1). pose proof (Hsum _ H3).
  rewrite foldr_app. simpl.
  assert (Hshift : forall (l : list Z) (a : Z),
            foldr Z.add a l = a + foldr Z.add 0 l).
  { induction l as [|x l IH]; intros a; simpl; [lia|]. rewrite IH. lia. }
  rewrite Hshift. lia.
Qed.

(** X14. A repositioning is followed by progress: in a state between two
    rounds whose trucks hold the configured capacity and no commitment, if a
    truck stands at the origin of the first unprocessed order and the volume
    of that order is at most the configured capacity, then [_fill_trucks]
    processes at least one order. *)
Theorem fill_trucks_progress_after_move self order truck (k : nat) :
  between_rounds self ->
  trucks_ready self ->
  first_unprocessed (MPCSolver.orders self) = Some order ->
  MPCSolver.trucks self !! k = Some truck ->
  Truck.position truck = Order.origin order ->
  Order.volume order <= MPCSolver.truck_capacity self ->
  1 <= MPCSolver.num_added_orders (MPCSolver._fill_trucks self).
Proof.
  revert self order truck k.
  exact fill_trucks_progress.
Qed.

Lemma fill_trucks_progress_after_move_witness :
  between_rounds moved_solver
  /\ trucks_ready moved_solver
  /\ first_unprocessed (MPCSolver.orders moved_solver)
     = Some (Order.mk 0 1 4 0 0 200)
  /\ MPCSolver.trucks moved_solver !! 0%nat = Some (Truck.mk 10 0 100 7 (Some 3))
  /\ 0 = 0
  /\ 4 <= MPCSolver.truck_capacity moved_solver
  /\ 1 <= MPCSolver.num_added_orders (MPCSolver._fill_trucks moved_solver).
Proof.
  assert (H1 : between_rounds moved_solver).
  { split; [|split; [by repeat constructor | done]].
    repeat constructor; unfold is_bit; simpl; lia. }
  assert (H2 : trucks_ready moved_solver) by (by repeat constructor).
  assert (H3 : first_unprocessed (MPCSolver.orders moved_solver)
               = Some (Order.mk 0 1 4 0 0 200)) by reflexivity.
  assert (H4 : MPCSolver.trucks moved_solver !! 0%nat
               = Some (Truck.mk 10 0 100 7 (Some 3))) by reflexivity.
  assert (H5 : 0 = 0) by reflexivity.
  assert (H6 : 4 <= MPCSolver.truck_capacity moved_solver) by (simpl; lia).
  split; [exact H1|]. split; [exact H2|]. split; [exact H3|].
  split; [exact H4|]. split; [exact H5|]. split; [exact H6|].
  exact (fill_trucks_progress_after_move moved_solver (Order.mk 0 1 4 0 0 200)
           (Truck.mk 10 0 100 7 (Some 3)) 0 H1 H2 H3 H4 H5 H6).
Defined.

(** ** Termination *)

Lemma rounds_S (fuel : nat) self :
  MPCSolver.rounds (S fuel) self
  = if MPCSolver.num_processed_orders self
       <? Z.of_nat (length (MPCSolver.orders self))
    then match MPCSolver.round self with
         | None => Raised
         | Some (self', out) =>
             match MPCSolver.rounds fuel self' with
             | Returned (final, outs) => Returned (final, out :: outs)
             | Raised => Raised
             | OutOfFuel => OutOfFuel
             end
         end
    else Returned (self, []).
Proof. reflexivity. Qed.

(** More fuel does not change a run that has returned. *)
Lemma rounds_more_fuel (fuel : nat) self result :
  MPCSolver.rounds fuel self = Returned result ->
  MPCSolver.rounds (S fuel) self = Returned result.
Proof.
  revert self result. induction fuel as [|fuel IH]; intros self result.
  - cbn [MPCSolver.rounds].
    by destruct (MPCSolver.num_processed_orders self
                 <? Z.of_nat (length (MPCSolver.orders self))).
  - intros H. rewrite <- H. remember (S fuel) as fuel' eqn:E.
    cbn [MPCSolver.rounds]. rewrite E in *. cbn [MPCSolver.rounds] in *.
    destruct (MPCSolver.num_processed_orders self
              <? Z.of_nat (length (MPCSolver.orders self))); [|done].
    destruct (MPCSolver.round self) as [[self' out]|]; [|done].
    destruct (MPCSolver.rounds fuel self') as [[final outs]| |] eqn:Hrest;
      try discriminate.
    by rewrite (IH _ _ Hrest).
Qed.

Lemma solver_ok_volumes problem dfi dn tc self :
  solver_ok problem dfi dn tc self ->
  Forall (fun order => Order.volume order <= tc) (Problem.orders problem) ->
  Forall (fun order => Order.volume order <= tc) (MPCSolver.orders self).
Proof.
  intros (_ & _ & _ & _ & _ & _ & Horders) Hvol.
  induction Horders as [|o o' l l' (_ & _ & Hv & _) _ IH]; [constructor|].
  inversion_clear Hvol. constructor; [lia | by apply IH].
Qed.

Lemma first_unprocessed_elem_of (orders : list Order.t) order :
  first_unprocessed orders = Some order -> order ∈ orders.
Proof.
  unfold first_unprocessed. intros H. apply find_some in H as [H _].
  by apply list_elem_of_In.
Qed.

(** The loop returns within two rounds for each order still to process. *)
Lemma rounds_terminate problem dfi dn tc (todo : nat) self :
  Forall (fun order => Order.volume order <= tc) (Problem.orders problem) ->
  solver_ok problem dfi dn tc self ->
  MPCSolver.trucks self <> [] ->
  Z.of_nat (length (MPCSolver.orders self)) - MPCSolver.num_processed_orders self
    <= Z.of_nat todo ->
  exists final outs, MPCSolver.rounds (2 * todo) self = Returned (final, outs).
Proof.
  intros Hvol. revert self.
  induction todo as [|todo IH]; intros self Hok Hne Htodo.
  - replace (2 * 0)%nat with 0%nat by lia. cbn [MPCSolver.rounds].
    destruct (Z.ltb_spec (MPCSolver.num_processed_orders self)
                (Z.of_nat (length (MPCSolver.orders self)))); [lia|].
    by eexists _, _.
  - replace (2 * S todo)%nat with (S (S (2 * todo))) by lia.
    remember (2 * todo)%nat as fuel eqn:Hfuel.
    rewrite rounds_S.
    destruct (Z.ltb_spec (MPCSolver.num_processed_orders self)
                (Z.of_nat (length (MPCSolver.orders self)))) as [Hlt | Hge];
      [|by eexists _, _].
    destruct (round_keeps_solver_ok _ _ _ _ _ Hok Hne Hlt)
      as (self1 & n1 & Hround1 & _ & Hok1 & Hne1 & Hready1 & Hn1 & Hnum1
          & _ & Hstall1).
    rewrite Hround1.
    assert (Hlen1 : length (MPCSolver.orders self1)
                    = length (MPCSolver.orders self)).
    { destruct Hok as (_ & _ & _ & _ & _ & _ & H).
      destruct Hok1 as (_ & _ & _ & _ & _ & _ & H1).
      apply Forall2_length in H, H1. congruence. }
    destruct (decide (n1 = 0)) as [Hz | Hnz].
    + (* a stalled round, then a round that makes progress *)
      destruct (Hstall1 Hz) as (Horders1 & _ & order & k & truck & Hfind & Hk
                                & Hpos).
      assert (Hlt1 : MPCSolver.num_processed_orders self1
                     < Z.of_nat (length (MPCSolver.orders self1)))
        by (rewrite Hlen1; lia).
      destruct (round_keeps_solver_ok _ _ _ _ _ Hok1 Hne1 Hlt1)
        as (self2 & n2 & Hround2 & Hn2eq & Hok2 & Hne2 & _ & _ & Hnum2 & _).
      assert (Hn2 : 1 <= n2).
      { rewrite Hn2eq.
        apply (fill_trucks_progress self1 order truck k);
          try done.
        - by destruct Hok1.
        - by rewrite Horders1.
        - destruct Hok1 as (_ & -> & _).
          pose proof (solver_ok_volumes _ _ _ _ _ Hok Hvol) as Hall.
          rewrite Forall_forall in Hall. apply Hall, list_elem_of_In.
          by apply first_unprocessed_elem_of. }
      assert (Hlen2 : length (MPCSolver.orders self2)
                      = length (MPCSolver.orders self1)).
      { destruct Hok1 as (_ & _ & _ & _ & _ & _ & H).
        destruct Hok2 as (_ & _ & _ & _ & _ & _ & H2).
        apply Forall2_length in H, H2. congruence. }
      destruct (IH self2 Hok2 Hne2) as (final & outs & Hrest); [lia|].
      rewrite rounds_S.
      destruct (Z.ltb_spec (MPCSolver.num_processed_orders self1)
                  (Z.of_nat (length (MPCSolver.orders self1)))); [|lia].
      rewrite Hround2, Hrest. by eexists _, _.
    + destruct (IH self1 Hok1 Hne1) as (final & outs & Hrest); [lia|].
      rewrite (rounds_more_fuel _ _ _ Hrest). by eexists _, _.
Qed.

(** X15. [solve_problem] terminates: on an uploaded problem with a fleet
    that is not empty and no order larger than the configured capacity, it
    returns after at most two rounds for each order, whatever the map and
    the positions. *)
Theorem solve_problem_terminates problem dfi dn tc start :
  MPCSolver.__init__ (prepare_mpc_data problem dfi dn) dfi dn tc = Some start ->
  Problem.trucks problem <> [] ->
  Forall (fun order => Order.volume order <= tc) (Problem.orders problem) ->
  exists final outs,
    MPCSolver.solve_problem (2 * length (Problem.orders problem)) start
    = Returned (final, outs).
Proof.
  intros Hinit Hne Hvol.
  destruct (reachable_solver_ok _ _ _ _ _ _ Hinit Hne (reachable_start start))
    as [Hok Hfleet].
  destruct (init_solver_ok _ _ _ _ _ Hinit) as (_ & _ & Hzero & _).
  destruct (rounds_terminate problem dfi dn tc (length (Problem.orders problem))
              start Hvol Hok Hfleet) as (final & outs & Hrun).
  { destruct Hok as (_ & _ & _ & _ & _ & _ & H). apply Forall2_length in H.
    rewrite H. lia. }
  unfold MPCSolver.solve_problem. rewrite Hrun. by eexists _, _.
Qed.

Lemma solve_problem_terminates_witness :
  MPCSolver.__init__ (prepare_mpc_data stalled_problem 200 100) 200 100 10
  = Some stalled_solver
  /\ Problem.trucks stalled_problem <> []
  /\ Forall (fun order => Order.volume order <= 10)
       (Problem.orders stalled_problem)
  /\ exists final outs,
       MPCSolver.solve_problem (2 * length (Problem.orders stalled_problem))
         stalled_solver
       = Returned (final, outs).
Proof.
  assert (H1 : MPCSolver.__init__ (prepare_mpc_data stalled_problem 200 100)
                 200 100 10 = Some stalled_solver) by reflexivity.
  assert (H2 : Problem.trucks stalled_problem <> []) by discriminate.
  assert (H3 : Forall (fun order => Order.volume order <= 10)
                 (Problem.orders stalled_problem))
    by (repeat constructor; simpl; lia).
  split; [exact H1|]. split; [exact H2|]. split; [exact H3|].
  exact (solve_problem_terminates stalled_problem 200 100 10 stalled_solver
           H1 H2 H3).
Defined.

(** ** An order that fits no truck *)

Section Unfit.

Variable self : MPCSolver.t.
Variable v : Z.

(** With volumes that are not negative, a truck whose capacity is below [v]
    packs no order of volume [v] or more. *)
Lemma fill_truck_with_orders_unfit truck orders :
  Forall sound_order orders ->
  Truck.capacity truck < v ->
  Forall2 (kept_if_large v) orders (MPCSolver.fill_truck_with_orders self truck orders).2.
Proof.
  intros Hsound. revert truck.
  induction Hsound as [|order orders [Hp Hvol] _ IH]; intros truck Hcap;
    [constructor|].
  rewrite fill_truck_with_orders_cons. cbn zeta. cbn [fst snd].
  rewrite fill_truck_with_order_decide by done.
  destruct (decide _) as [(_ & _ & Hroom & _) | _]; cbn [fst snd].
  - constructor; [|apply IH; simpl; lia].
    split; [done|]. split; [by right|]. lia.
  - constructor; [|by apply IH]. by repeat split.
Qed.

Lemma fill_each_truck_unfit trucks orders :
  Forall sound_order orders ->
  Forall (fun truck => Truck.capacity truck < v) trucks ->
  Forall2 (kept_if_large v) orders (MPCSolver.fill_each_truck self trucks orders).2.
Proof.
  intros Hsound Hcaps. revert orders Hsound.
  induction Hcaps as [|truck trucks Hcap _ IH]; intros orders Hsound.
  - apply Forall_Forall2_diag. eapply Forall_impl; [|exact Hsound].
    intros o [Hp _]. by repeat split.
  - rewrite fill_each_truck_cons. cbn zeta. cbn [fst snd].
    pose proof (fill_truck_with_orders_unfit truck orders Hsound Hcap) as H1.
    eapply Forall2_trans; [|exact H1|apply IH].
    + intros o o1 o2 (Hv1 & _ & Hk1) (Hv2 & Hb2 & Hk2).
      split; [congruence|]. split; [done|].
      intros Hle. rewrite <- (Hk1 Hle). apply Hk2. lia.
    + clear -H1 Hsound. induction H1 as [|o o' l l' (Hv & Hb & _) _ IHl];
        [constructor|].
      inversion_clear Hsound as [|? ? [_ Hvol] Hrest].
      constructor; [split; [done | lia] | by apply IHl].
Qed.

End Unfit.

Lemma unprocessed_order_counts (orders : list Order.t) (i : nat) order :
  Forall order_ok orders ->
  orders !! i = Some order ->
  Order.processed order = 0 ->
  foldr Z.add 0 (Order.processed <$> orders) < Z.of_nat (length orders).
Proof.
  intros Hflags. revert i.
  induction Hflags as [|o l (Ho & _) Hl IH]; intros i Hi Hz; [done|].
  assert (Hle : foldr Z.add 0 (Order.processed <$> l) <= Z.of_nat (length l)).
  { clear -Hl. induction Hl as [|o l ([Ho | Ho] & _) _ IHl]; csimpl; lia. }
  destruct i as [|i]; csimpl in *.
  - injection Hi as ->. lia.
  - specialize (IH i Hi Hz). destruct Ho; lia.
Qed.

(** The loop never returns from a state in which an unprocessed order is
    larger than the configured capacity and than the capacity of every
    truck. *)
Lemma rounds_out_of_fuel problem dfi dn tc (v : Z) (fuel : nat) self :
  Forall (fun order => 0 <= Order.volume order) (Problem.orders problem) ->
  tc < v ->
  solver_ok problem dfi dn tc self ->
  MPCSolver.trucks self <> [] ->
  Forall (fun truck => Truck.capacity truck < v) (MPCSolver.trucks self) ->
  (exists (i : nat) order,
     MPCSolver.orders self !! i = Some order
     /\ Order.processed order = 0
     /\ v <= Order.volume order) ->
  MPCSolver.rounds fuel self = OutOfFuel.
Proof.
  intros Hvol Htc. revert self.
  induction fuel as [|fuel IH];
    intros self Hok Hne Hcaps (i & order & Hi & Hz & Hv).
  all: assert (Hlt : MPCSolver.num_processed_orders self
                     < Z.of_nat (length (MPCSolver.orders self)))
         by (destruct Hok as ((Hflags & _ & ->) & _);
             by eapply unprocessed_order_counts).
  - cbn [MPCSolver.rounds].
    by destruct (Z.ltb_spec (MPCSolver.num_processed_orders self)
                   (Z.of_nat (length (MPCSolver.orders self)))); [|lia].
  - rewrite rounds_S.
    destruct (Z.ltb_spec (MPCSolver.num_processed_orders self)
                (Z.of_nat (length (MPCSolver.orders self)))); [|lia].
    destruct (round_keeps_solver_ok _ _ _ _ _ Hok Hne Hlt)
      as (self' & n & Hround & _ & Hok' & Hne' & Hready & _).
    rewrite Hround. rewrite (IH self'); try done.
    + destruct Hok' as (_ & Hcap & _). unfold trucks_ready in Hready.
      eapply Forall_impl; [|exact Hready]. simpl. intros t [Ht _]. lia.
    + (* the order is still there, unprocessed *)
      assert (Hsound : Forall sound_order (MPCSolver.orders self)).
      { destruct Hok as ((Hflags & _) & _ & _ & _ & _ & _ & Horders).
        clear -Hflags Horders Hvol.
        induction Horders as [|o o' l l' (_ & _ & Hv & _) _ IHl]; [constructor|].
        inversion_clear Hflags as [|? ? [Hp _] Hrest].
        inversion_clear Hvol as [|? ? Hv0 Hrest0].
        constructor; [split; [done | lia] | by apply IHl]. }
      pose proof (fill_each_truck_unfit self v (MPCSolver.trucks self)
                    (MPCSolver.orders self) Hsound Hcaps) as Hkept.
      destruct (Forall2_lookup_l _ _ _ _ _ Hkept Hi) as (o' & Hi' & _ & _ & Hk).
      rewrite (Hk Hv) in Hi'.
      assert (Horders' : MPCSolver.orders self'
                         = MPCSolver.reset_order
                             <$> (MPCSolver.fill_each_truck self
                                    (MPCSolver.trucks self)
                                    (MPCSolver.orders self)).2).
      { unfold MPCSolver.round in Hround.
        destruct (if _ =? 0 then _ else _) as [moved|] eqn:Hm;
          [|discriminate Hround].
        cbn [mbind option_bind] in Hround. injection Hround as <- _.
        cbn [MPCSolver.orders MPCSolver.set_orders
             MPCSolver.set_num_processed_orders].
        assert (Ho : MPCSolver.orders moved
                     = MPCSolver.orders (MPCSolver._fill_trucks self)).
        { destruct (_ =? 0); [|by injection Hm as <-].
          unfold MPCSolver._create_empty_truck_drive in Hm.
          destruct (MPCSolver._locate_first_unprocessed_origin _)
            as [[o1 v1]|]; [|discriminate]. cbn [mbind option_bind] in Hm.
          destruct (mapM _ _) as [dists|]; [|discriminate].
          cbn [mbind option_bind] in Hm.
          destruct (mpc.argmin dists) as [closest|]; [|discriminate].
          cbn [mbind option_bind] in Hm. by injection Hm as <-. }
        rewrite Ho. unfold MPCSolver._fill_trucks.
        by destruct (MPCSolver.fill_each_truck self (MPCSolver.trucks self)
                       (MPCSolver.orders self)). }
      exists i, (MPCSolver.reset_order order).
      rewrite Horders', list_lookup_fmap, Hi'. by repeat split.
Qed.

(** X16. [solve_problem] has no round ceiling: on an uploaded problem with a
    fleet that is not empty and volumes that are not negative, if some order
    is larger than the configured capacity and than the capacity of every
    truck, the loop neither returns nor raises, however many rounds it is
    given. *)
Theorem solve_problem_never_returns problem dfi dn tc start order (fuel : nat) :
  MPCSolver.__init__ (prepare_mpc_data problem dfi dn) dfi dn tc = Some start ->
  Problem.trucks problem <> [] ->
  Forall (fun order => 0 <= Order.volume order) (Problem.orders problem) ->
  order ∈ Problem.orders problem ->
  tc < Order.volume order ->
  Forall (fun truck => Truck.capacity truck < Order.volume order)
    (Problem.trucks problem) ->
  MPCSolver.solve_problem fuel start = OutOfFuel.
Proof.
  intros Hinit Hne Hvol Hin Htc Hcaps.
  destruct (reachable_solver_ok _ _ _ _ _ _ Hinit Hne (reachable_start start))
    as [Hok Hfleet].
  unfold MPCSolver.solve_problem.
  rewrite (rounds_out_of_fuel problem dfi dn tc (Order.volume order) fuel start);
    try done.
  - destruct (init_orders_ok _ _ _ _ _ Hinit) as (_ & -> & _).
    apply Forall_fmap. eapply Forall_impl; [|exact Hcaps]. by intros t Ht.
  - apply list_elem_of_lookup in Hin as [i Hi].
    exists i, (initialize_order (upload_order order) dfi).
    split; [|by split].
    unfold MPCSolver.__init__ in Hinit.
    destruct (Problem.orders (prepare_mpc_data problem dfi dn)) eqn:E; [done|].
    injection Hinit as <-. cbn [MPCSolver.orders]. rewrite <- E.
    cbn [prepare_mpc_data Problem.orders]. by rewrite list_lookup_fmap, Hi.
Qed.

Lemma solve_problem_never_returns_witness :
  MPCSolver.__init__
    (prepare_mpc_data
       (Problem.mk [Truck.mk 10 0 0 7 None] [Order.mk 0 1 11 0 0 0] two_nodes)
       200 100) 200 100 10
  = Some (MPCSolver.mk [Truck.mk 10 0 100 7 None] [Order.mk 0 1 11 0 0 200]
            two_nodes [] 200 100 10 0)
  /\ [Truck.mk 10 0 0 7 None] <> []
  /\ Forall (fun order => 0 <= Order.volume order) [Order.mk 0 1 11 0 0 0]
  /\ Order.mk 0 1 11 0 0 0 ∈ [Order.mk 0 1 11 0 0 0]
  /\ 10 < 11
  /\ Forall (fun truck => Truck.capacity truck < 11) [Truck.mk 10 0 0 7 None]
  /\ MPCSolver.solve_problem 50
       (MPCSolver.mk [Truck.mk 10 0 100 7 None] [Order.mk 0 1 11 0 0 200]
          two_nodes [] 200 100 10 0)
     = OutOfFuel.
Proof.
  assert (H1 : MPCSolver.__init__
                 (prepare_mpc_data
                    (Problem.mk [Truck.mk 10 0 0 7 None]
                       [Order.mk 0 1 11 0 0 0] two_nodes) 200 100) 200 100 10
               = Some (MPCSolver.mk [Truck.mk 10 0 100 7 None]
                         [Order.mk 0 1 11 0 0 200] two_nodes [] 200 100 10 0))
    by reflexivity.
  assert (H2 : [Truck.mk 10 0 0 7 None] <> []) by discriminate.
  assert (H3 : Forall (fun order => 0 <= Order.volume order)
                 [Order.mk 0 1 11 0 0 0]) by (repeat constructor; simpl; lia).
  assert (H4 : Order.mk 0 1 11 0 0 0 ∈ [Order.mk 0 1 11 0 0 0])
    by apply list_elem_of_here.
  assert (H5 : 10 < 11) by lia.
  assert (H6 : Forall (fun truck => Truck.capacity truck < 11)
                 [Truck.mk 10 0 0 7 None]) by (repeat constructor; simpl; lia).
  split; [exact H1|]. split; [exact H2|]. split; [exact H3|].
  split; [exact H4|]. split; [exact H5|]. split; [exact H6|].
  exact (solve_problem_never_returns
           (Problem.mk [Truck.mk 10 0 0 7 None] [Order.mk 0 1 11 0 0 0] two_nodes)
           200 100 10 _ (Order.mk 0 1 11 0 0 0) 50 H1 H2 H3 H4 H5 H6).
Defined.

(** ** The closest truck *)

Lemma argmin_from_min (p x : list Z) (best : nat * Z) :
  p !! best.1 = Some best.2 ->
  (forall (i : nat) y, p !! i = Some y -> best.2 <= y) ->
  let r := mpc.argmin_from (length p) best x in
  (p ++ x) !! r.1 = Some r.2
  /\ (forall (i : nat) y, (p ++ x) !! i = Some y -> r.2 <= y).
Proof.
  revert p best. induction x as [|v x IH]; intros p best Hbest Hmin.
  - simpl. by rewrite app_nil_r.
  - cbn zeta. cbn [mpc.argmin_from].
    replace (S (length p)) with (length (p ++ [v]))
      by (rewrite length_app; simpl; lia).
    replace (p ++ v :: x) with ((p ++ [v]) ++ x) by (by rewrite <- app_assoc).
    apply IH.
    + destruct (Z.ltb_spec v best.2); simpl.
      * by rewrite lookup_app_r, Nat.sub_diag.
      * rewrite lookup_app_l; [done|]. by eapply lookup_lt_Some.
    + intros i y Hi. apply lookup_app_Some in Hi as [Hi | [Hlen Hi]].
      * specialize (Hmin i y Hi). destruct (Z.ltb_spec v best.2); simpl; lia.
      * apply list_lookup_singleton_Some in Hi as [_ <-].
        destruct (Z.ltb_spec v best.2); simpl; lia.
Qed.

(** [mpc.argmin] returns the position and the value of a least entry. *)
Lemma argmin_min (x : list Z) :
  x <> [] ->
  exists (k : nat) m,
    mpc.argmin x = Some (k, m)
    /\ x !! k = Some m
    /\ (forall (i : nat) y, x !! i = Some y -> m <= y).
Proof.
  destruct x as [|v x]; [done|]. intros _.
  destruct (argmin_from_min [v] x (0%nat, v)) as [H1 H2]; [done| |].
  { intros [|i] y Hi; simpl in Hi; [injection Hi as <-; simpl; lia | done]. }
  simpl in H1, H2. unfold mpc.argmin.
  destruct (mpc.argmin_from 1 (0%nat, v) x) as [k m]. by exists k, m.
Qed.

Lemma distances_eq self vec (trucks : list Truck.t) :
  mapM Truck.dist_to_order
    ((fun truck =>
        MPCSolver._find_truck_dist_to_order self truck vec
          (Map.route_matrix (MPCSolver.map self))) <$> trucks)
  = Some ((fun truck =>
             mpc.in_prod
               (compute_indicator_vector
                  (Map.num_positions (MPCSolver.map self)) (Truck.position truck))
               (mpc.matrix_vector_prod (Map.route_matrix (MPCSolver.map self))
                  vec)) <$> trucks).
Proof.
  induction trucks as [|truck trucks IH]; [done|].
  rewrite !fmap_cons. cbn [mapM]. rewrite IH. reflexivity.
Qed.

(** X17. When some order is unprocessed, the fleet is not empty and the map
    is well formed, [_create_empty_truck_drive] succeeds and moves a truck
    whose route to the origin of the first unprocessed order costs no more
    than that of any other truck: the new empty drive carries the freighter
    id and the old position of that truck, and the truck ends at that
    origin. *)
Theorem create_empty_truck_drive_moves_closest self order :
  Forall (fun order => is_bit (Order.processed order)) (MPCSolver.orders self) ->
  first_unprocessed (MPCSolver.orders self) = Some order ->
  MPCSolver.trucks self <> [] ->
  well_formed_map (MPCSolver.map self) ->
  exists self' (k : nat) closest,
    MPCSolver._create_empty_truck_drive self = Some self'
    /\ MPCSolver.trucks self !! k = Some closest
    /\ (forall truck,
          truck ∈ MPCSolver.trucks self ->
          route_cost (MPCSolver.map self) (Truck.position closest)
            (Order.origin order)
          <= route_cost (MPCSolver.map self) (Truck.position truck)
               (Order.origin order))
    /\ MPCSolver.empty_drives self'
       = MPCSolver.empty_drives self
         ++ [EmptyDrive.mk (Truck.freighter_id closest) (Truck.position closest)
               (Order.origin order)]
    /\ Truck.position <$> MPCSolver.trucks self' !! k
       = Some (Order.origin order).
Proof.
  intros Hbits Hfind Hne Hmap. unfold MPCSolver._create_empty_truck_drive.
  rewrite (locate_first_unprocessed_origin_eq self order Hbits Hfind).
  cbn [mbind option_bind].
  set (vec := compute_indicator_vector _ _).
  unfold MPCSolver._find_distances_to_order.
  set (measured := _ <$> MPCSolver.trucks self).
  cbn [MPCSolver.trucks MPCSolver.set_trucks].
  pose proof (distances_eq self vec (MPCSolver.trucks self)) as Hdists.
  fold measured in Hdists. rewrite Hdists. cbn [mbind option_bind].
  erewrite (list_fmap_ext _
              (fun truck =>
                 route_cost (MPCSolver.map self) (Truck.position truck)
                   (Order.origin order)));
    [|intros i truck _; subst vec; by apply distance_is_route_cost].
  set (cost := fun truck : Truck.t => route_cost _ _ _).
  destruct (argmin_min (cost <$> MPCSolver.trucks self))
    as (k & m & Hmin & Hk & Hleast).
  { by destruct (MPCSolver.trucks self). }
  rewrite Hmin. cbn [mbind option_bind fst].
  rewrite list_lookup_fmap in Hk.
  destruct (MPCSolver.trucks self !! k) as [closest|] eqn:Hc; [|done].
  injection Hk as <-.
  assert (Hm : measured !! k
               = Some (MPCSolver._find_truck_dist_to_order self closest vec
                         (Map.route_matrix (MPCSolver.map self))))
    by (subst measured; by rewrite list_lookup_fmap, Hc).
  eexists _, k, closest. split; [reflexivity|]. split; [done|]. split.
  { intros truck Hin. apply list_elem_of_lookup in Hin as [j Hj].
    apply (Hleast j). by rewrite list_lookup_fmap, Hj. }
  split.
  { unfold MPCSolver._move_truck, MPCSolver._find_freighter_id,
      MPCSolver._find_truck_position.
    cbn [MPCSolver.empty_drives MPCSolver.set_trucks MPCSolver.set_empty_drives
         MPCSolver.trucks MPCSolver.dummy_node MPCSolver.dummy_freighter_id].
    rewrite (select_truck_field_at Truck.freighter_id k 0 measured _ _ Hm).
    rewrite (select_truck_field_at Truck.position k 0 measured _ _ Hm).
    reflexivity. }
  rewrite move_truck_lookup.
  cbn [MPCSolver.trucks MPCSolver.set_trucks MPCSolver.set_empty_drives].
  rewrite Hm. simpl. by rewrite decide_True.
Qed.

Lemma create_empty_truck_drive_moves_closest_witness :
  Forall (fun order => is_bit (Order.processed order))
    (MPCSolver.orders stalled_solver)
  /\ first_unprocessed (MPCSolver.orders stalled_solver)
     = Some (Order.mk 0 1 4 0 0 200)
  /\ MPCSolver.trucks stalled_solver <> []
  /\ well_formed_map (MPCSolver.map stalled_solver)
  /\ exists self' (k : nat) closest,
       MPCSolver._create_empty_truck_drive stalled_solver = Some self'
       /\ MPCSolver.trucks stalled_solver !! k = Some closest.
Proof.
  assert (H1 : Forall (fun order => is_bit (Order.processed order))
                 (MPCSolver.orders stalled_solver)) by (repeat constructor).
  assert (H2 : first_unprocessed (MPCSolver.orders stalled_solver)
               = Some (Order.mk 0 1 4 0 0 200)) by reflexivity.
  assert (H3 : MPCSolver.trucks stalled_solver <> []) by discriminate.
  assert (H4 : well_formed_map (MPCSolver.map stalled_solver))
    by (split; [reflexivity | repeat constructor]).
  split; [exact H1|]. split; [exact H2|]. split; [exact H3|].
  split; [exact H4|].
  destruct (create_empty_truck_drive_moves_closest stalled_solver
              (Order.mk 0 1 4 0 0 200) H1 H2 H3 H4)
    as (self' & k & closest & Hrun & Hk & _).
  by exists self', k, closest.
Defined.

(** ** Where a round of filling takes the trucks *)

Section Moves.

Variable self : MPCSolver.t.

(** The commitment of a truck after its inner loop: the one it had, or the
    destination of an order that starts where the truck stands. *)
Lemma fill_truck_with_orders_destination truck orders :
  Forall (fun order => is_bit (Order.processed order)) orders ->
  let result := MPCSolver.fill_truck_with_orders self truck orders in
  Truck.destination result.1 = Truck.destination truck
  \/ (exists order,
        order ∈ orders
        /\ Order.origin order = Truck.position truck
        /\ Truck.destination result.1 = Order.destination order).
Proof.
  intros Hbits. revert truck.
  induction Hbits as [|order orders Hp _ IH]; intros truck; [by left|].
  rewrite fill_truck_with_orders_cons. cbn zeta. cbn [fst snd].
  rewrite fill_truck_with_order_decide by done.
  destruct (decide _) as [(Hpos & _) | _]; cbn [fst snd].
  - match goal with
    | |- context [MPCSolver.fill_truck_with_orders self ?t orders] =>
        destruct (IH t) as [Hd | (o & Hin & Ho & Hd)]
    end; simpl in *.
    + right. exists order. split; [apply list_elem_of_here | done].
    + right. exists o. split; [by apply list_elem_of_further | done].
  - destruct (IH truck) as [Hd | (o & Hin & Ho & Hd)]; [by left|].
    right. exists o. split; [by apply list_elem_of_further | done].
Qed.

Lemma fill_each_truck_moves trucks orders0 orders :
  Forall (fun order => is_bit (Order.processed order)) orders ->
  Forall2 (fun order0 order =>
             Order.origin order = Order.origin order0
             /\ Order.destination order = Order.destination order0)
    orders0 orders ->
  Forall (fun truck => Truck.destination truck = MPCSolver.dummy_node self)
    trucks ->
  Forall2 (fun truck truck' =>
             Truck.position truck' = Truck.position truck
             \/ (exists order,
                   order ∈ orders0
                   /\ Order.origin order = Truck.position truck
                   /\ Truck.position truck' = Order.destination order))
    trucks (MPCSolver.fill_each_truck self trucks orders).1.
Proof.
  intros Hbits Hsame Hfree. revert orders Hbits Hsame.
  induction Hfree as [|truck trucks Hd _ IH]; intros orders Hbits Hsame;
    [constructor|].
  rewrite fill_each_truck_cons. cbn zeta. cbn [fst snd].
  pose proof (fill_truck_with_orders_packs self truck orders Hbits) as Hpack.
  constructor.
  - destruct (fill_truck_with_orders_frame self truck orders) as (Hpos & _).
    destruct (fill_truck_with_orders_destination truck orders Hbits)
      as [Hsamed | (o & Hin & Ho & Hdest)];
      unfold MPCSolver.finish_truck; cbn [Truck.position].
    + left. rewrite Hsamed, Hd, eq_true, if_else_0 by done. done.
    + destruct (decide (Order.destination o = MPCSolver.dummy_node self))
        as [He | Hn].
      * left. rewrite Hdest, He, eq_true, if_else_0 by done. done.
      * right. apply list_elem_of_lookup in Hin as [i Hi].
        destruct (Forall2_lookup_r _ _ _ _ _ Hsame Hi) as (o0 & Hi0 & H1 & H2).
        exists o0. split; [by eapply list_elem_of_lookup_2|].
        split; [congruence|].
        rewrite Hdest, eq_false, if_else_1 by done. congruence.
  - apply IH; [by eapply kept_or_packed_bits|].
    eapply Forall2_trans; [|exact Hsame|exact Hpack].
    intros o0 o o' [H1 H2] [-> | (_ & t & _ & _ & ->)]; [done|].
    by split.
Qed.

End Moves.

(** X18. Through [_fill_trucks], with [processed] flags that are bits and
    trucks that start uncommitted, a truck stays where it is or drives to
    the destination of one of the orders that start at its position; it
    goes nowhere else. *)
Theorem fill_trucks_moves_along_orders self :
  Forall (fun order => is_bit (Order.processed order)) (MPCSolver.orders self) ->
  Forall (fun truck => Truck.destination truck = MPCSolver.dummy_node self)
    (MPCSolver.trucks self) ->
  Forall2 (fun truck truck' =>
             Truck.position truck' = Truck.position truck
             \/ (exists order,
                   order ∈ MPCSolver.orders self
                   /\ Order.origin order = Truck.position truck
                   /\ Truck.position truck' = Order.destination order))
    (MPCSolver.trucks self) (MPCSolver.trucks (MPCSolver._fill_trucks self)).
Proof.
  intros Hbits Hfree.
  pose proof (fill_each_truck_moves self (MPCSolver.trucks self)
                (MPCSolver.orders self) (MPCSolver.orders self) Hbits) as H.
  unfold MPCSolver._fill_trucks.
  destruct (MPCSolver.fill_each_truck self (MPCSolver.trucks self)
              (MPCSolver.orders self)) as [trucks' orders'].
  apply H; [|done]. apply Forall_Forall2_diag, Forall_true. by intros o.
Qed.

Lemma fill_trucks_moves_along_orders_witness :
  Forall (fun order => is_bit (Order.processed order))
    (MPCSolver.orders scenario_solver)
  /\ Forall (fun truck => Truck.destination truck
                          = MPCSolver.dummy_node scenario_solver)
       (MPCSolver.trucks scenario_solver)
  /\ Forall2 (fun truck truck' =>
                Truck.position truck' = Truck.position truck
                \/ (exists order,
                      order ∈ MPCSolver.orders scenario_solver
                      /\ Order.origin order = Truck.position truck
                      /\ Truck.position truck' = Order.destination order))
       (MPCSolver.trucks scenario_solver)
       (MPCSolver.trucks (MPCSolver._fill_trucks scenario_solver)).
Proof.
  assert (H1 : Forall (fun order => is_bit (Order.processed order))
                 (MPCSolver.orders scenario_solver)) by (repeat constructor).
  assert (H2 : Forall (fun truck => Truck.destination truck
                                    = MPCSolver.dummy_node scenario_solver)
                 (MPCSolver.trucks scenario_solver)) by (by repeat constructor).
  split; [exact H1|]. split; [exact H2|].
  exact (fill_trucks_moves_along_orders scenario_solver H1 H2).
Defined.

(** ** No exception in the round loop *)

Lemma rounds_never_raise problem dfi dn tc (fuel : nat) self :
  solver_ok problem dfi dn tc self ->
  MPCSolver.trucks self <> [] ->
  MPCSolver.rounds fuel self <> Raised.
Proof.
  revert self. induction fuel as [|fuel IH]; intros self Hok Hne.
  - cbn [MPCSolver.rounds].
    by destruct (MPCSolver.num_processed_orders self
                 <? Z.of_nat (length (MPCSolver.orders self))).
  - rewrite rounds_S.
    destruct (Z.ltb_spec (MPCSolver.num_processed_orders self)
                (Z.of_nat (length (MPCSolver.orders self)))) as [Hlt | _];
      [|done].
    destruct (round_keeps_solver_ok _ _ _ _ _ Hok Hne Hlt)
      as (self' & n & Hround & _ & Hok' & Hne' & _).
    rewrite Hround. specialize (IH self' Hok' Hne').
    by destruct (MPCSolver.rounds fuel self') as [[final outs]| |].
Qed.

(** X19. On an uploaded problem with a fleet that is not empty,
    [solve_problem] raises no exception, in any number of rounds: the
    repositioning always finds an unprocessed order and a truck to move. *)
Theorem solve_problem_never_raises problem dfi dn tc start (fuel : nat) :
  MPCSolver.__init__ (prepare_mpc_data problem dfi dn) dfi dn tc = Some start ->
  Problem.trucks problem <> [] ->
  MPCSolver.solve_problem fuel start <> Raised.
Proof.
  intros Hinit Hne.
  destruct (reachable_solver_ok _ _ _ _ _ _ Hinit Hne (reachable_start start))
    as [Hok Hfleet].
  pose proof (rounds_never_raise _ _ _ _ fuel _ Hok Hfleet) as H.
  unfold MPCSolver.solve_problem.
  by destruct (MPCSolver.rounds fuel start) as [[final outs]| |].
Qed.

Lemma solve_problem_never_raises_witness :
  MPCSolver.__init__ (prepare_mpc_data stalled_problem 200 100) 200 100 10
  = Some stalled_solver
  /\ Problem.trucks stalled_problem <> []
  /\ MPCSolver.solve_problem 1 stalled_solver <> Raised.
Proof.
  assert (H1 : MPCSolver.__init__ (prepare_mpc_data stalled_problem 200 100)
                 200 100 10 = Some stalled_solver) by reflexivity.
  assert (H2 : Problem.trucks stalled_problem <> []) by discriminate.
  split; [exact H1|]. split; [exact H2|].
  exact (solve_problem_never_raises stalled_problem 200 100 10 stalled_solver 1
           H1 H2).
Defined.
